(** * WIL-DS-workshop: formality classifier and terminology analysis

    A shallow embedding of the two notebooks of the repository:

    - [WIL_demo_TM.ipynb]: [check_formality_type];
    - [WIL_demo_Terminology.ipynb]: [TextPreprocessor], [FrequencyAnalyzer],
      [FrequencyDist] and [PhraseAnalyzer].

    Python values are modelled as follows.  A [str] is the list of its code
    points; an [int] is a [Z]; a [Counter] is the list of its items in
    insertion order (a Python [dict] iterates in insertion order, and
    [sorted] is stable, so that order is observable); a call that can raise
    returns an [outcome]. *)

From stdpp Require Import gmap list sorting strings.
From Stdlib Require Import ZArith NArith Ascii.
From Stdlib Require DecimalString.

Local Open Scope Z_scope.

(** ** Python strings *)

(** A code point. *)
Definition char := N.

#[global] Instance char_eq_dec : EqDecision char := N.eq_dec.

(** A Python [str]: its sequence of code points. *)
Definition str := list char.

(** The [str] written by an ASCII literal. *)
Fixpoint lit (x : string) : str :=
  match x with
  | EmptyString => []
  | String a r => N_of_ascii a :: lit r
  end.

Arguments lit : simpl never.

(** [len(x)] as a Python [int]. *)
Definition len {A} (l : list A) : Z := Z.of_nat (length l).

(** [str.isspace] on one code point, which is also what [\s] matches in a
    [str] pattern: the characters of bidirectional class WS, B or S and of
    category Zs. *)
Definition isspace (c : char) : bool :=
  ((9 <=? c) && (c <=? 13) || (28 <=? c) && (c <=? 32) ||
   (c =? 133) || (c =? 160) || (c =? 5760) ||
   (8192 <=? c) && (c <=? 8202) || (c =? 8232) || (c =? 8233) ||
   (c =? 8239) || (c =? 8287) || (c =? 12288))%N.

(** The line feed ['\n']. *)
Definition NL : char := 10%N.

Fixpoint lstrip (x : str) : str :=
  match x with
  | [] => []
  | c :: r => if isspace c then lstrip r else x
  end.

Definition rstrip (x : str) : str := reverse (lstrip (reverse x)).

(** [x.strip()] *)
Definition strip (x : str) : str := rstrip (lstrip x).

(** [sep.join(xs)] *)
Fixpoint join (sep : str) (xs : list str) : str :=
  match xs with
  | [] => []
  | [x] => x
  | x :: r => x ++ sep ++ join sep r
  end.

(** [x.split()]: the maximal runs of non-whitespace characters.  [cur] is
    the run being read, reversed. *)
Fixpoint split_go (cur : str) (x : str) : list str :=
  match x with
  | [] => match cur with [] => [] | _ => [reverse cur] end
  | c :: r =>
      if isspace c
      then match cur with
           | [] => split_go [] r
           | _ => reverse cur :: split_go [] r
           end
      else split_go (c :: cur) r
  end.

Definition split (x : str) : list str := split_go [] x.

(** [a < b] on [str]: lexicographic on code points. *)
Fixpoint str_ltb (a b : str) : bool :=
  match a, b with
  | _, [] => false
  | [], _ :: _ => true
  | x :: a', y :: b' =>
      if (x <? y)%N then true
      else if (x =? y)%N then str_ltb a' b'
      else false
  end.

(** [x in xs] for a list of strings. *)
Definition str_in (x : str) (xs : list str) : bool := bool_decide (x ∈ xs).

(** ** [re.split(r'\n\s*\n', text)] *)

(** With [x] the text after a line feed: the number of characters that
    [\s*\n] consumes there, if it matches.  [\s*] is greedy and [\s]
    matches a line feed, so the match ends at the last line feed of the
    whitespace run that [x] starts with. *)
Fixpoint blank_run (x : str) : option nat :=
  match x with
  | [] => None
  | c :: r =>
      if isspace c
      then match blank_run r with
           | Some k => Some (S k)
           | None => if (c =? NL)%N then Some 1%nat else None
           end
      else None
  end.

(** The scan of [re.split]: [skip] characters of the current match are
    still to be consumed, [cur] is the piece being read, reversed.  Matches
    are found leftmost first and do not overlap. *)
Fixpoint re_split_go (skip : nat) (cur : str) (x : str) : list str :=
  match x with
  | [] => [reverse cur]
  | c :: r =>
      match skip with
      | S k => re_split_go k cur r
      | O =>
          if (c =? NL)%N
          then match blank_run r with
               | Some k => reverse cur :: re_split_go k [] r
               | None => re_split_go O (c :: cur) r
               end
          else re_split_go O (c :: cur) r
      end
  end.

Definition re_split_blank_lines (text : str) : list str :=
  re_split_go O [] text.

(** ** Python built-ins *)

(** [l[:n]], with [n] an [int] or [None]. *)
Definition slice_to {A} (l : list A) (n : option Z) : list A :=
  match n with
  | None => l
  | Some n =>
      if 0 <=? n then take (Z.to_nat n) l
      else take (Z.to_nat (len l + n)) l
  end.

(** [sorted(l, key=k)] where [lt a b] is [k(a) < k(b)]: the stable sort.
    [x] comes before the elements of [l], so it is placed before the first
    element that is not strictly smaller. *)
Fixpoint sorted_insert {A} (lt : A -> A -> bool) (x : A) (l : list A) : list A :=
  match l with
  | [] => [x]
  | y :: r => if lt y x then y :: sorted_insert lt x r else x :: l
  end.

Fixpoint sorted {A} (lt : A -> A -> bool) (l : list A) : list A :=
  match l with
  | [] => []
  | x :: r => sorted_insert lt x (sorted lt r)
  end.

(** [sorted(l, key=k, reverse=True)]: descending, and still stable. *)
Definition sorted_reverse {A} (lt : A -> A -> bool) (l : list A) : list A :=
  sorted (fun a b => lt b a) l.

(** What a call does: it returns a value or raises.  [ValueError] is the
    only exception the modelled code raises; [EmptyDistribution] and
    [InvalidQueryBounds] are the error conditions of the design's
    taxonomy. *)
Inductive exn := ValueError | EmptyDistribution | InvalidQueryBounds.

Inductive outcome (A : Type) :=
  | Returns (a : A)
  | Raises (e : exn).
Arguments Returns {A} a.
Arguments Raises {A} e.

#[global] Instance outcome_ret : MRet outcome := fun A a => Returns a.

#[global] Instance outcome_bind : MBind outcome := fun A B f m =>
  match m with
  | Returns a => f a
  | Raises e => Raises e
  end.

(** [max(l)] and [min(l)]: [ValueError] on an empty sequence. *)
Definition py_max (l : list Z) : outcome Z :=
  match l with
  | [] => Raises ValueError
  | x :: r => Returns (foldl Z.max x r)
  end.

Definition py_min (l : list Z) : outcome Z :=
  match l with
  | [] => Raises ValueError
  | x :: r => Returns (foldl Z.min x r)
  end.

(** [sum(l)] *)
Definition py_sum (l : list Z) : Z := foldl Z.add 0 l.

(** A numpy float: [NaN], or the real number [num / den] that numpy rounds
    to binary64. *)
Inductive npfloat := NaN | Ratio (num : Z) (den : positive).

(** [np.mean(l)]: [nan] (and a warning) on an empty list. *)
Definition np_mean (l : list Z) : npfloat :=
  match l with
  | [] => NaN
  | _ => Ratio (py_sum l) (Pos.of_nat (length l))
  end.

(** [np.median(l)]: the middle of the sorted values, or the mean of the
    two middle ones; [nan] (and a warning) on an empty list. *)
Definition np_median (l : list Z) : npfloat :=
  let v := sorted Z.ltb l in
  let h := (length l / 2)%nat in
  match l with
  | [] => NaN
  | _ =>
      if Nat.even (length l)
      then Ratio (nth (h - 1) v 0 + nth h v 0) 2
      else Ratio (nth h v 0) 1
  end.

(** [l[i]] for a list: a negative index counts from the end; [None] is
    [IndexError]. *)
Definition py_index {A} (l : list A) (i : Z) : option A :=
  if 0 <=? i then l !! Z.to_nat i
  else if 0 <=? len l + i then l !! Z.to_nat (len l + i)
  else None.

(** [str(i)] for an [int]. *)
Definition str_of_int (i : Z) : str :=
  lit (DecimalString.NilZero.string_of_int (Z.to_int i)).

(** What a function writes and asks on the terminal: [print(s)] and the
    prompt of [input(prompt)]. *)
Inductive event :=
  | Print (s : str)
  | Input (prompt : str).

(** ** The annotation engine's data (spaCy) *)

(** A token: the attributes the notebooks read.  [morph] maps a feature
    name to its values. *)
Record Token := {
  text : str;
  lemma_ : str;
  pos_ : str;
  morph : list (str * list str);
  is_stop : bool;
  is_alpha : bool
}.

(** An annotated text: its tokens and its noun-phrase spans. *)
Record Doc := {
  tokens : list Token;
  noun_chunks : list (list Token)
}.

(** [token.morph.get(field)]: the values of the feature, [[]] when the
    token does not have it. *)
Fixpoint morph_get (m : list (str * list str)) (field : str) : list str :=
  match m with
  | [] => []
  | (f, vs) :: r => if decide (f = field) then vs else morph_get r field
  end.

(** ** WIL_demo_TM.ipynb *)

Module TM.
Section WithLower.

(** [str.lower], which is Unicode's lowercase mapping. *)
Variable lower : str -> str.

(** The lists the loop tests [text_lower] against; [244] is U+00F4. *)
Definition plural_forms : list str :=
  [lit "vous"; lit "v" ++ [244%N] ++ lit "tre";
   lit "v" ++ [244%N] ++ lit "tres"; lit "votre"; lit "vos"].

Definition singular_forms : list str :=
  [lit "tu"; lit "te"; lit "t'"; lit "toi"; lit "tien"; lit "tienne";
   lit "tiens"; lit "tiennes"; lit "ton"; lit "ta"; lit "tes"].

(** The body of [for token in doc], on [(plural_found, singular_found)]. *)
Definition formality_step (st : bool * bool) (token : Token) : bool * bool :=
  let '(plural_found, singular_found) := st in
  let text_lower := lower (text token) in
  let '(plural_found, singular_found) :=
    if str_in text_lower plural_forms then (true, singular_found)
    else if str_in text_lower singular_forms then (plural_found, true)
    else (plural_found, singular_found) in
  if str_in (pos_ token) [lit "VERB"; lit "AUX"]
  then
    let person := morph_get (morph token) (lit "Person") in
    let number := morph_get (morph token) (lit "Number") in
    if decide (person = [lit "2"])
    then
      if decide (number = [lit "Plur"]) then (true, singular_found)
      else if decide (number = [lit "Sing"]) then (plural_found, true)
      else (plural_found, singular_found)
    else (plural_found, singular_found)
  else (plural_found, singular_found).

Definition check_formality_type (text : str) (nlp : str -> Doc) : str :=
  let doc := nlp text in
  let '(plural_found, singular_found) :=
    foldl formality_step (false, false) (tokens doc) in
  if plural_found && singular_found then lit "Not Applicable"
  else if plural_found then lit "Formal"
  else if singular_found then lit "Informal"
  else lit "Not Applicable".

End WithLower.
End TM.

(** ** WIL_demo_Terminology.ipynb *)

Module Terminology.

(** A [Counter]: its items in insertion order, keys distinct. *)
Definition Counter := list (str * Z).

(** [c[k]]: a missing key counts 0. *)
Fixpoint counter_get (c : Counter) (k : str) : Z :=
  match c with
  | [] => 0
  | (k', v) :: r => if decide (k' = k) then v else counter_get r k
  end.

(** [c[k] += 1]: a key already there keeps its place, a new key goes to
    the end. *)
Fixpoint counter_incr (c : Counter) (k : str) : Counter :=
  match c with
  | [] => [(k, 0 + 1)]
  | (k', v) :: r =>
      if decide (k' = k) then (k', v + 1) :: r
      else (k', v) :: counter_incr r k
  end.

(** The mapping a [Counter] is, which is what [==] on dicts compares. *)
Definition to_map (c : Counter) : gmap str Z := list_to_map c.

Record TextPreprocessor := {
  nlp : str -> Doc;
  stop_words : list str;
  chunk_size : Z
}.

(** [[p.strip() for p in re.split(r'\n\s*\n', text) if p.strip()]] *)
Definition split_paragraphs (text : str) : list str :=
  strip <$> filter (fun p => strip p <> []) (re_split_blank_lines text).

(** The body of [for para in paragraphs], on
    [(chunks, current_chunk, current_length)]. *)
Definition process_step (self : TextPreprocessor)
    (st : list Doc * list str * Z) (para : str) : list Doc * list str * Z :=
  let '(chunks, current_chunk, current_length) := st in
  if bool_decide (current_length + len para > chunk_size self)
  then
    let chunk_text := join [NL; NL] current_chunk in
    (chunks ++ [nlp self chunk_text], [para], len para)
  else (chunks, current_chunk ++ [para], current_length + len para).

Definition process_text (self : TextPreprocessor) (text : str) : list Doc :=
  let paragraphs := split_paragraphs text in
  let '(chunks, current_chunk, _) :=
    foldl (process_step self) ([], [], 0) paragraphs in
  match current_chunk with
  | [] => chunks
  | _ =>
      let chunk_text := join [NL; NL] current_chunk in
      chunks ++ [nlp self chunk_text]
  end.

(** The files of the machine: [fs path] is what
    [open(path, 'r', encoding='utf-8').read()] returns, and [None] when
    [open] raises [FileNotFoundError].  (Other failures of [open] and
    [read] are not modelled.) *)
Definition filesystem := str -> option str.

(** [load_text]: what it prints, and what it returns. *)
Definition load_text (fs : filesystem) (self : TextPreprocessor)
    (file_path : str) : list event * str :=
  match fs file_path with
  | Some content => ([], content)
  | None =>
      ([Print (lit "Error: The file " ++ file_path ++ lit " was not found.")],
       [])
  end.

(** *** FrequencyDist *)

(** [(-x[1], x[0]) < (-y[1], y[0])]: tuples compare on the first component
    where they differ. *)
Definition rank_lt (x y : str * Z) : bool :=
  if decide (- x.2 = - y.2) then str_ltb x.1 y.1
  else bool_decide (- x.2 < - y.2).

(** [(len(x[0]), x[1]) < (len(y[0]), y[1])] *)
Definition longest_lt (x y : str * Z) : bool :=
  if decide (len x.1 = len y.1) then bool_decide (x.2 < y.2)
  else bool_decide (len x.1 < len y.1).

Record FrequencyDist := {
  counter : Counter;
  _sorted_items : list (str * Z)
}.

(** [FrequencyDist(counter)] *)
Definition FrequencyDist_init (counter : Counter) : FrequencyDist :=
  {| counter := counter; _sorted_items := sorted rank_lt counter |}.

Definition most_common (self : FrequencyDist) (n : option Z)
    : outcome (list (str * Z)) :=
  match n with
  | None => Returns (_sorted_items self)
  | Some _ => Returns (slice_to (_sorted_items self) n)
  end.

Definition least_common (self : FrequencyDist) (n : option Z) (min_freq : Z)
    : outcome (list (str * Z)) :=
  let filtered :=
    filter (fun wc : str * Z => wc.2 >= min_freq) (_sorted_items self) in
  match n with
  | None => Returns (reverse filtered)
  | Some _ => Returns (slice_to (reverse filtered) n)
  end.

Definition get_range (self : FrequencyDist) (start end_ : option Z)
    : outcome (list (str * Z)) :=
  let items :=
    filter (fun wc : str * Z =>
              (match start with None => true | Some s => bool_decide (wc.2 >= s) end)
              && (match end_ with None => true | Some e => bool_decide (wc.2 <= e) end))
           (_sorted_items self) in
  Returns items.

(** The dict [get_stats] returns. *)
Record Stats := {
  total_occurrences : Z;
  unique_words : Z;
  mean_frequency : npfloat;
  median_frequency : npfloat;
  max_frequency : Z;
  min_frequency : Z
}.

(** The entries of the dict display are evaluated in order, so [max] is
    the first call that can raise. *)
Definition get_stats (self : FrequencyDist) : outcome Stats :=
  let frequencies := (counter self).*2 in
  let total := py_sum frequencies in
  let unique := len (counter self) in
  let mean := np_mean frequencies in
  let median := np_median frequencies in
  mx ← py_max frequencies;
  mn ← py_min frequencies;
  mret {| total_occurrences := total; unique_words := unique;
          mean_frequency := mean; median_frequency := median;
          max_frequency := mx; min_frequency := mn |}.

Definition get_longest (self : FrequencyDist) (n : Z)
    : outcome (list (str * Z)) :=
  let sorted_by_length := sorted_reverse longest_lt (counter self) in
  Returns (slice_to sorted_by_length (Some n)).

(** [items()], [values()] and [keys()]: the views of the counter, in
    insertion order. *)
Definition items (self : FrequencyDist) : list (str * Z) := counter self.

Definition values (self : FrequencyDist) : list Z := (counter self).*2.

Definition keys (self : FrequencyDist) : list str := (counter self).*1.

(** [self[key]]: the counter's [__getitem__], 0 on a missing key. *)
Definition __getitem__ (self : FrequencyDist) (key : str) : Z :=
  counter_get (counter self) key.

Section WithLower.

(** [str.lower], which is Unicode's lowercase mapping. *)
Variable lower : str -> str.

(** *** FrequencyAnalyzer *)

Record FrequencyAnalyzer := { preprocessor : TextPreprocessor }.

(** The body of [for token in doc], on [(verbs, nouns, adjectives)]. *)
Definition process_token (self : FrequencyAnalyzer)
    (st : Counter * Counter * Counter) (token : Token)
    : Counter * Counter * Counter :=
  let '(verbs, nouns, adjectives) := st in
  if negb (is_stop token) && is_alpha token && bool_decide (len (text token) > 2)
  then
    let lemma := lower (lemma_ token) in
    if negb (str_in lemma (stop_words (preprocessor self)))
    then
      if decide (pos_ token = lit "VERB")
      then (counter_incr verbs lemma, nouns, adjectives)
      else if decide (pos_ token = lit "NOUN")
      then (verbs, counter_incr nouns lemma, adjectives)
      else if decide (pos_ token = lit "ADJ")
      then (verbs, nouns, counter_incr adjectives lemma)
      else st
    else st
  else st.

Definition _process_doc_tokens (self : FrequencyAnalyzer) (doc : Doc)
    (st : Counter * Counter * Counter) : Counter * Counter * Counter :=
  foldl (process_token self) st (tokens doc).

(** The argument of [get_pos_frequencies]: a list of chunks, or (the
    [else] branch of the [isinstance] test) one chunk. *)
Inductive doc_chunks_arg :=
  | ChunkList (docs : list Doc)
  | OneChunk (doc : Doc).

(** The three counters when [get_pos_frequencies] returns. *)
Definition pos_counters (self : FrequencyAnalyzer) (doc_chunks : doc_chunks_arg)
    : Counter * Counter * Counter :=
  match doc_chunks with
  | ChunkList docs =>
      foldl (fun st doc => _process_doc_tokens self doc st) ([], [], []) docs
  | OneChunk doc => _process_doc_tokens self doc ([], [], [])
  end.

Definition get_pos_frequencies (self : FrequencyAnalyzer)
    (doc_chunks : doc_chunks_arg)
    : FrequencyDist * FrequencyDist * FrequencyDist :=
  let '(verbs, nouns, adjectives) := pos_counters self doc_chunks in
  (FrequencyDist_init verbs, FrequencyDist_init nouns,
   FrequencyDist_init adjectives).

(** *** PhraseAnalyzer *)

Record PhraseAnalyzer := { preprocessor' : TextPreprocessor }.

(** The phrase built from one noun chunk. *)
Definition clean_phrase (chunk : list Token) : str :=
  join (lit " ")
    ((fun token => lower (lemma_ token)) <$>
       filter (fun token : Token => negb (is_stop token) && is_alpha token) chunk).

(** The body of [for chunk in doc.noun_chunks]. *)
Definition phrase_step (noun_phrases : Counter) (chunk : list Token) : Counter :=
  let phrase := clean_phrase chunk in
  if bool_decide (phrase <> []) && bool_decide (len (split phrase) > 1)
  then counter_incr noun_phrases phrase
  else noun_phrases.

(** The counter when [get_noun_phrases] returns. *)
Definition noun_phrase_counter (self : PhraseAnalyzer) (doc_chunks : list Doc)
    : Counter :=
  foldl (fun noun_phrases doc => foldl phrase_step noun_phrases (noun_chunks doc))
        [] doc_chunks.

Definition get_noun_phrases (self : PhraseAnalyzer) (doc_chunks : list Doc)
    : FrequencyDist :=
  FrequencyDist_init (noun_phrase_counter self doc_chunks).

(** *** TextAnalyzer *)

Record TextAnalyzer := {
  preprocessor_ : TextPreprocessor;
  frequency_analyzer : FrequencyAnalyzer;
  phrase_analyzer : PhraseAnalyzer
}.

(** [TextAnalyzer(chunk_size)], with what [spacy.load('en_core_web_sm')]
    and [stopwords.words('english')] return. *)
Definition TextAnalyzer_init (spacy_model : str -> Doc)
    (english_stopwords : list str) (chunk_size : Z) : TextAnalyzer :=
  let preprocessor :=
    {| nlp := spacy_model; stop_words := english_stopwords;
       chunk_size := chunk_size |} in
  {| preprocessor_ := preprocessor;
     frequency_analyzer := {| preprocessor := preprocessor |};
     phrase_analyzer := {| preprocessor' := preprocessor |} |}.

(** [analyze]: what it prints, and the four distributions it returns. *)
Definition analyze (fs : filesystem) (self : TextAnalyzer) (file_path : str)
    : list event
      * (FrequencyDist * FrequencyDist * FrequencyDist * FrequencyDist) :=
  let out1 := [Print (lit "Loading and preprocessing text...")] in
  let '(out2, full_text) := load_text fs (preprocessor_ self) file_path in
  let doc_chunks := process_text (preprocessor_ self) full_text in
  let out3 := [Print (lit "Analyzing word frequencies...")] in
  let '(verbs, nouns, adjectives) :=
    get_pos_frequencies (frequency_analyzer self) (ChunkList doc_chunks) in
  let out4 := [Print (lit "Analyzing noun phrases...")] in
  let noun_phrases := get_noun_phrases (phrase_analyzer self) doc_chunks in
  (out1 ++ out2 ++ out3 ++ out4, (verbs, nouns, adjectives, noun_phrases)).

(** *** WordCloudGenerator *)

Record WordCloudGenerator := { colormap_options : list str }.

Definition WordCloudGenerator_init : WordCloudGenerator :=
  {| colormap_options :=
       [lit "viridis"; lit "Blues"; lit "Reds"; lit "Greens";
        lit "Purples"; lit "plasma"; lit "inferno"] |}.

(** A call of [create_wordcloud], which renders with the [wordcloud] and
    [matplotlib] libraries: the arguments it is given ([width] and
    [height] keep their defaults). *)
Record create_wordcloud_call := {
  call_freq_dist : FrequencyDist;
  call_title : str;
  call_colormap : str;
  call_max_words : Z;
  call_background_color : str
}.

(** [int(x)] for a string: [None] is [ValueError]. *)
Variable int : str -> option Z.

(** The lines [for i, cmap in enumerate(self.colormap_options, 1)]
    prints. *)
Fixpoint print_options (i : Z) (options : list str) : list event :=
  match options with
  | [] => []
  | cmap :: r => Print (str_of_int i ++ lit ". " ++ cmap) :: print_options (i + 1) r
  end.

(** [interactive_wordcloud], on the three lines the user answers to its
    three [input] calls: what it writes, and the call of
    [create_wordcloud] it ends with. *)
Definition interactive_wordcloud (self : WordCloudGenerator)
    (freq_dist : FrequencyDist) (pos_name : str)
    (answer1 answer2 answer3 : str) : list event * create_wordcloud_call :=
  let out1 :=
    [Print ([NL] ++ lit "Creating word cloud for " ++ pos_name);
     Print ([NL] ++ lit "Available color schemes:")]
    ++ print_options 1 (colormap_options self)
    ++ [Input ([NL] ++ lit "Choose color scheme (number): ")] in
  let '(out2, colormap) :=
    match int answer1 with
    | Some i =>
        let cmap_choice := i - 1 in
        match py_index (colormap_options self) cmap_choice with
        | Some colormap => ([], colormap)
        | None =>
            ([Print (lit "Invalid choice, using default (viridis)")],
             lit "viridis")
        end
    | None =>
        ([Print (lit "Invalid choice, using default (viridis)")], lit "viridis")
    end in
  let out3 := [Input (lit "Maximum number of words (default 100): ")] in
  let '(out4, max_words) :=
    match int answer2 with
    | Some max_words => ([], max_words)
    | None => ([Print (lit "Invalid input, using default (100)")], 100)
    end in
  let out5 := [Input (lit "Background color (white/black, default white): ")] in
  let bg_color := lower answer3 in
  let bg_color :=
    if str_in bg_color [lit "white"; lit "black"] then bg_color
    else lit "white" in
  (out1 ++ out2 ++ out3 ++ out4 ++ out5,
   {| call_freq_dist := freq_dist;
      call_title := pos_name ++ lit " Word Cloud";
      call_colormap := colormap;
      call_max_words := max_words;
      call_background_color := bg_color |}).

End WithLower.

End Terminology.

(** ** What the design says, in its own words *)

Module Design.
Section WithLower.

Variable lower : str -> str.

(** A token is plural evidence when its lowercased surface text is one of
    vous, vôtre, vôtres, votre, vos, or when it is a VERB or AUX with Person
    exactly 2 and Number exactly Plur. *)
Definition plural_evidence (t : Token) : bool :=
  bool_decide (lower (text t) ∈
     [lit "vous"; lit "v" ++ [244%N] ++ lit "tre";
      lit "v" ++ [244%N] ++ lit "tres"; lit "votre"; lit "vos"])
  || bool_decide (pos_ t = lit "VERB" \/ pos_ t = lit "AUX")
     && bool_decide (morph_get (morph t) (lit "Person") = [lit "2"])
     && bool_decide (morph_get (morph t) (lit "Number") = [lit "Plur"]).

(** A token is singular evidence when its lowercased surface text is one
    of tu, te, t', toi, tien, tienne, tiens, tiennes, ton, ta, tes, or when
    it is a VERB or AUX with Person exactly 2 and Number exactly Sing. *)
Definition singular_evidence (t : Token) : bool :=
  bool_decide (lower (text t) ∈
     [lit "tu"; lit "te"; lit "t'"; lit "toi"; lit "tien"; lit "tienne";
      lit "tiens"; lit "tiennes"; lit "ton"; lit "ta"; lit "tes"])
  || bool_decide (pos_ t = lit "VERB" \/ pos_ t = lit "AUX")
     && bool_decide (morph_get (morph t) (lit "Person") = [lit "2"])
     && bool_decide (morph_get (morph t) (lit "Number") = [lit "Sing"]).

(** The resolution: Formal on plural evidence only, Informal on singular
    evidence only, Not Applicable on both or neither. *)
Definition verdict (plural singular : bool) : str :=
  match plural, singular with
  | true, false => lit "Formal"
  | false, true => lit "Informal"
  | _, _ => lit "Not Applicable"
  end.

Definition classify (sentence_tokens : list Token) : str :=
  verdict (existsb plural_evidence sentence_tokens)
          (existsb singular_evidence sentence_tokens).

(** The three buckets of the frequency aggregator and the coarse
    part-of-speech tag each one takes. *)
Inductive bucket := Verbs | Nouns | Adjectives.

Definition bucket_tag (b : bucket) : str :=
  match b with
  | Verbs => lit "VERB"
  | Nouns => lit "NOUN"
  | Adjectives => lit "ADJ"
  end.

(** The per-token inclusion rule: not a stop word, alphabetic, surface
    text longer than 2 characters, lowercased lemma not a stop word. *)
Definition qualifies (stop_words : list str) (t : Token) : bool :=
  negb (is_stop t) && is_alpha t && bool_decide (2 < len (text t))
  && negb (bool_decide (lower (lemma_ t) ∈ stop_words)).

(** A token contributes to a bucket when it qualifies and carries the
    bucket's tag. *)
Definition contributes (stop_words : list str) (b : bucket) (t : Token) : bool :=
  qualifies stop_words t && bool_decide (pos_ t = bucket_tag b).

(** Merging two Count Tables by key-wise addition of counts. *)
Definition merge_counts (m1 m2 : gmap str Z) : gmap str Z :=
  union_with (fun a b => Some (a + b)) m1 m2.

(** The lexicographic order on keys. *)
Inductive key_lt : str -> str -> Prop :=
  | key_lt_nil c b : key_lt [] (c :: b)
  | key_lt_head x y a b : (x < y)%N -> key_lt (x :: a) (y :: b)
  | key_lt_tail x a b : key_lt a b -> key_lt (x :: a) (x :: b).

(** The order of the ranking index: descending count, ties broken by
    ascending key. *)
Definition ranks_before (x y : str * Z) : Prop :=
  y.2 < x.2 \/ (x.2 = y.2 /\ key_lt x.1 y.1).

(** The order of the longest-first ranking: key length descending, then
    count descending. *)
Definition longest_before (x y : str * Z) : Prop :=
  len y.1 < len x.1 \/ (len x.1 = len y.1 /\ y.2 <= x.2).

(** A paragraph boundary: two line feeds with only whitespace between
    them, that is, one or more blank lines. *)
Definition has_boundary (text : str) : Prop :=
  exists a m b, text = a ++ [NL] ++ m ++ [NL] ++ b
                /\ Forall (fun c => isspace c = true) m.

(** The bound on a chunk: at most [max_chunk_size] characters, unless the
    chunk is a single paragraph that alone exceeds the limit. *)
Definition chunk_within_limit (max_chunk_size : Z) (paragraphs : list str)
    (chunk : str) : Prop :=
  len chunk <= max_chunk_size
  \/ (chunk ∈ paragraphs /\ max_chunk_size < len chunk).

(** A lemma that is one word: not empty, no whitespace in it. *)
Definition one_word (w : str) : Prop :=
  w <> [] /\ Forall (fun c => isspace c = false) w.

(** The normalized phrase of a span: the lowercased lemmas of its tokens
    that are alphabetic and not stop words, in span order, joined by
    spaces. *)
Definition normalized_phrase (span : list Token) : str :=
  join (lit " ")
    ((fun t => lower (lemma_ t)) <$>
       filter (fun t : Token => is_alpha t && negb (is_stop t)) span).

(** The phrases that are counted: those of the spans of all chunks, in
    order, that retain 2 or more space-separated components. *)
Definition counted_phrases (chunks : list Doc) : list str :=
  filter (fun phrase => 2 <= len (split phrase))
    (normalized_phrase <$> (chunks ≫= noun_chunks)).

End WithLower.
End Design.

(** ** Auxiliary definitions of the proofs *)

(** Counting one more occurrence of [k] in a mapping. *)
Definition add_key (m : gmap str Z) (k : str) : gmap str Z :=
  <[k := default 0 (m !! k) + 1]> m.

(** The number of occurrences of [k] in a list of keys. *)
Definition occ (k : str) (keys : list str) : Z := len (filter (k =.) keys).

#[global] Instance bucket_eq_dec : EqDecision Design.bucket.
Proof. solve_decision. Defined.

(** The component of a triple [(verbs, nouns, adjectives)] that belongs to
    a bucket. *)
Definition pick {A} (b : Design.bucket) (x : A * A * A) : A :=
  match b with
  | Design.Verbs => x.1.1
  | Design.Nouns => x.1.2
  | Design.Adjectives => x.2
  end.

(** The keys that the tokens contributing to a bucket count, in order. *)
Definition bucket_keys (lower : str -> str) (stop_words : list str)
    (b : Design.bucket) (toks : list Token) : list str :=
  (fun t => lower (lemma_ t)) <$>
    filter (fun t => Design.contributes lower stop_words b t) toks.

(** A Count Table: distinct keys, every count at least 1. *)
Definition count_table (c : Terminology.Counter) : Prop :=
  NoDup c.*1 /\ Forall (fun wc => 1 <= wc.2) c.

(** The order a stable sort with comparison [lt] puts a list in: no
    element is strictly smaller than one before it. *)
Definition not_after {A} (lt : A -> A -> bool) (x y : A) : Prop :=
  lt y x = false.

(** No two entries tie on both key length and count. *)
Definition tie_free (c : Terminology.Counter) : Prop :=
  forall x y, x ∈ c -> y ∈ c -> len x.1 = len y.1 -> x.2 = y.2 -> x = y.

(** [str.lower] on texts of Basic Latin and Latin-1 Supplement characters,
    where it works character by character: A-Z and the capital letters
    U+00C0-U+00DE (but not the multiplication sign U+00D7) move up by 32.
    The examples instantiate [lower] with it. *)
Definition lower_latin1 (x : str) : str :=
  (fun c : N =>
     if ((65 <=? c) && (c <=? 90)
         || (192 <=? c) && (c <=? 222) && negb (c =? 215))%N
     then (c + 32)%N else c) <$> x.

(** An annotation engine that answers every text with the same tokens and
    spans. *)
Definition const_nlp (toks : list Token) (spans : list (list Token))
    : str -> Doc :=
  fun _ => {| tokens := toks; noun_chunks := spans |}.

(** A token with a given surface text, lemma and tag. *)
Definition word (surface lemma tag : string) : Token :=
  {| text := lit surface; lemma_ := lit lemma; pos_ := lit tag; morph := [];
     is_stop := false; is_alpha := true |}.

(** The total length of the paragraphs of a chunk. *)
Definition total_len (paras : list str) : Z := foldr (fun p n => len p + n) 0 paras.

(** The paragraphs that [process_text] puts in each chunk: the loop of
    [process_text] with the closed chunks kept as lists of paragraphs. *)
Definition group_step (size : Z) (st : list (list str) * list str * Z)
    (para : str) : list (list str) * list str * Z :=
  let '(groups, current_chunk, current_length) := st in
  if bool_decide (current_length + len para > size)
  then (groups ++ [current_chunk], [para], len para)
  else (groups, current_chunk ++ [para], current_length + len para).

Definition close_groups (st : list (list str) * list str * Z) : list (list str) :=
  let '(groups, current_chunk, _) := st in
  match current_chunk with
  | [] => groups
  | _ => groups ++ [current_chunk]
  end.

Definition chunk_groups (size : Z) (paragraphs : list str) : list (list str) :=
  close_groups (foldl (group_step size) ([], [], 0) paragraphs).

(** What the paragraphs of one chunk satisfy. *)
Definition group_ok (size : Z) (g : list str) : Prop :=
  total_len g <= size \/ exists p, g = [p] /\ size < len p.

(** An annotation engine that keeps the text it is given, as the surface
    text of a single token. *)
Definition echo_nlp (x : str) : Doc :=
  {| tokens := [{| text := x; lemma_ := x; pos_ := []; morph := [];
                   is_stop := false; is_alpha := false |}];
     noun_chunks := [] |}.

(** A preprocessor around [echo_nlp], with no stop words. *)
Definition echo_preprocessor (size : Z) : Terminology.TextPreprocessor :=
  {| Terminology.nlp := echo_nlp; Terminology.stop_words := [];
     Terminology.chunk_size := size |}.

(** A chunk of one noun. *)
Definition noun_doc (lemma : string) : Doc :=
  {| tokens := [word lemma lemma "NOUN"]; noun_chunks := [] |}.

(** Settles a decidable closed goal by evaluating its decision. *)
Ltac decide_by_computation :=
  apply (bool_decide_unpack _); vm_compute; exact I.

(** Whether a count lies within the bounds of [get_range], a bound that is
    [None] being no bound. *)
Definition in_range (start end_ : option Z) (v : Z) : Prop :=
  match start with None => True | Some s => s <= v end
  /\ match end_ with None => True | Some e => v <= e end.

#[global] Instance in_range_dec start end_ v : Decision (in_range start end_ v).
Proof. unfold in_range. destruct start, end_; apply _. Defined.

(** The number of entries [l[:n]] has, for a list of [size] entries. *)
Definition slice_len (size n : Z) : Z :=
  if 0 <=? n then Z.min n size else Z.max 0 (size + n).

(** The order of [least_common]: ascending count, and among equal counts
    the later key first. *)
Definition ranks_after (x y : str * Z) : Prop :=
  x.2 < y.2 \/ (x.2 = y.2 /\ ~ Design.key_lt x.1 y.1).

(** The chunk that holds the tokens and the spans of a list of chunks, in
    order. *)
Definition merged_chunk (docs : list Doc) : Doc :=
  {| tokens := docs ≫= tokens; noun_chunks := docs ≫= noun_chunks |}.

(** A text that starts and ends with a character that is not
    whitespace. *)
Definition trimmed (p : str) : Prop :=
  match head p, last p with
  | Some a, Some b => isspace a = false /\ isspace b = false
  | _, _ => False
  end.

(** The chunks of [process_text] from the middle of the loop on: the
    chunk being filled, then the chunks that follow. *)
Fixpoint groups_from (size : Z) (cur : list str) (n : Z) (paras : list str)
    : list (list str) :=
  match paras with
  | [] => [cur]
  | p :: ps =>
      if bool_decide (n + len p > size)
      then cur :: groups_from size [p] (len p) ps
      else groups_from size (cur ++ [p]) (n + len p) ps
  end.

(** A chunk and the chunk after it: the second starts with a paragraph
    that did not fit in the first. *)
Definition greedy_next (size : Z) (g g' : list str) : Prop :=
  exists p r, g' = p :: r /\ size < total_len g + len p.

(** What the scan of [re.split] keeps true of the piece it is reading:
    after no line feed of the piece does [\s*\n] match. *)
Definition piece_open (pre x : str) : Prop :=
  forall a m, pre = a ++ NL :: m -> blank_run (m ++ x) = None.

(** The tokens that [get_pos_frequencies] visits, in order. *)
Definition visited_tokens (doc_chunks : Terminology.doc_chunks_arg) : list Token :=
  match doc_chunks with
  | Terminology.ChunkList docs => docs ≫= tokens
  | Terminology.OneChunk doc => tokens doc
  end.

(** The tokens of a span that the phrase aggregator retains: those that
    are alphabetic and not stop words. *)
Definition retained (span : list Token) : list Token :=
  filter (fun t : Token => is_alpha t && negb (is_stop t)) span.

(** A span whose retained tokens all have a lowercased lemma of one
    word. *)
Definition one_word_lemmas (lower : str -> str) (span : list Token) : Prop :=
  Forall (fun t => Design.one_word (lower (lemma_ t))) (retained span).

(** A stop word and a token that is not alphabetic. *)
Definition stop_token (surface : string) : Token :=
  {| text := lit surface; lemma_ := lit surface; pos_ := lit "ADP"; morph := [];
     is_stop := true; is_alpha := true |}.

Definition number_token (surface : string) : Token :=
  {| text := lit surface; lemma_ := lit surface; pos_ := lit "NUM"; morph := [];
     is_stop := false; is_alpha := false |}.

(** * Properties *)

(** ** The formality classifier *)

Section Formality.

Variable lower : str -> str.

Lemma plural_not_singular (x : str) :
  str_in x TM.plural_forms = true -> str_in x TM.singular_forms = false.
Proof.
  unfold str_in. intros H%bool_decide_eq_true.
  unfold TM.plural_forms in H.
  repeat (apply elem_of_cons in H as [-> | H]; [by vm_compute |]).
  by apply elem_of_nil in H.
Qed.

Lemma Plur_neq_Sing : [lit "Plur"] <> [lit "Sing"].
Proof. intros H. vm_compute in H. discriminate. Qed.

Lemma formality_step_evidence (p s : bool) (t : Token) :
  TM.formality_step lower (p, s) t =
    (p || Design.plural_evidence lower t, s || Design.singular_evidence lower t).
Proof.
  unfold TM.formality_step, Design.plural_evidence, Design.singular_evidence.
  fold TM.plural_forms TM.singular_forms.
  change (bool_decide (lower (text t) ∈ TM.plural_forms))
    with (str_in (lower (text t)) TM.plural_forms).
  change (bool_decide (lower (text t) ∈ TM.singular_forms))
    with (str_in (lower (text t)) TM.singular_forms).
  assert (Hpos : str_in (pos_ t) [lit "VERB"; lit "AUX"] =
                 bool_decide (pos_ t = lit "VERB" \/ pos_ t = lit "AUX")).
  { unfold str_in. apply bool_decide_ext.
    rewrite !elem_of_cons, elem_of_nil. tauto. }
  rewrite Hpos. clear Hpos.
  pose proof Plur_neq_Sing as Hne.
  generalize (morph_get (morph t) (lit "Number")). intros number.
  generalize (morph_get (morph t) (lit "Person")). intros person.
  assert (Hsing : str_in (lower (text t)) TM.plural_forms = true ->
                  str_in (lower (text t)) TM.singular_forms = false)
    by apply plural_not_singular.
  destruct (str_in (lower (text t)) TM.plural_forms);
    [rewrite Hsing by reflexivity |
     destruct (str_in (lower (text t)) TM.singular_forms)];
    destruct (bool_decide (pos_ t = lit "VERB" \/ pos_ t = lit "AUX"));
    repeat case_decide; repeat case_bool_decide;
    try congruence; destruct p, s; reflexivity.
Qed.

Lemma formality_fold (toks : list Token) (p s : bool) :
  foldl (TM.formality_step lower) (p, s) toks =
    (p || existsb (Design.plural_evidence lower) toks,
     s || existsb (Design.singular_evidence lower) toks).
Proof.
  revert p s. induction toks as [| t toks IH]; intros p s.
  - simpl. by rewrite !orb_false_r.
  - change (foldl (TM.formality_step lower) (p, s) (t :: toks))
      with (foldl (TM.formality_step lower)
              (TM.formality_step lower (p, s) t) toks).
    rewrite formality_step_evidence, IH. simpl. by rewrite !orb_assoc.
Qed.

(** C1. [check_formality_type] is a total function of the tokens the
    annotation engine returns, the empty sequence included.  Its result is
    the verdict of the design on the plural and the singular evidence found
    among the tokens, and is one of the three strings Formal, Informal and
    Not Applicable. *)
Theorem check_formality_type_classifies (text : str) (nlp : str -> Doc) :
  TM.check_formality_type lower text nlp =
    Design.classify lower (tokens (nlp text))
  /\ TM.check_formality_type lower text nlp ∈
       [lit "Formal"; lit "Informal"; lit "Not Applicable"]
  /\ TM.check_formality_type lower text
       (fun _ => {| tokens := []; noun_chunks := [] |}) = lit "Not Applicable".
Proof.
  assert (E : TM.check_formality_type lower text nlp =
              Design.classify lower (tokens (nlp text))).
  { unfold TM.check_formality_type, Design.classify.
    rewrite formality_fold. simpl.
    by destruct (existsb _ _), (existsb _ _). }
  split; [exact E |]. split.
  - rewrite E. unfold Design.classify, Design.verdict.
    destruct (existsb _ _), (existsb _ _); set_solver.
  - reflexivity.
Qed.

End Formality.

(** ** Counters *)

Section Counters.

Import Terminology.

Lemma counter_get_to_map (c : Counter) (k : str) :
  counter_get c k = default 0 (to_map c !! k).
Proof.
  unfold to_map. induction c as [| [k' v] c IH]; [done |].
  simpl. case_decide as E.
  - subst. by rewrite lookup_insert_eq.
  - by rewrite lookup_insert_ne.
Qed.

Lemma to_map_incr (c : Counter) (k : str) :
  to_map (counter_incr c k) = add_key (to_map c) k.
Proof.
  unfold to_map, add_key. induction c as [| [k' v] c IH]; [done |].
  simpl. case_decide as E.
  - subst. simpl. rewrite lookup_insert_eq. simpl. by rewrite insert_insert_eq.
  - simpl. rewrite IH, lookup_insert_ne by done. by apply insert_insert_ne.
Qed.

Lemma counter_get_incr (c : Counter) (key k : str) :
  counter_get (counter_incr c key) k =
    counter_get c k + (if decide (k = key) then 1 else 0).
Proof.
  rewrite !counter_get_to_map, to_map_incr. unfold add_key.
  case_decide as E.
  - subst. by rewrite lookup_insert_eq.
  - rewrite lookup_insert_ne by done. lia.
Qed.

Lemma counter_incr_keys (c : Counter) (k : str) :
  (counter_incr c k).*1 = if decide (k ∈ c.*1) then c.*1 else c.*1 ++ [k].
Proof.
  induction c as [| [k' v] c IH].
  - rewrite decide_False by apply not_elem_of_nil. done.
  - change (counter_incr ((k', v) :: c) k)
      with (if decide (k' = k) then (k', v + 1) :: c
            else (k', v) :: counter_incr c k).
    rewrite fmap_cons. destruct (decide (k' = k)) as [-> | Hne].
    + rewrite decide_True by apply list_elem_of_here. done.
    + rewrite fmap_cons, IH. cbn [fst].
      destruct (decide (k ∈ c.*1)) as [Hin | Hn].
      * rewrite decide_True by (by apply list_elem_of_further). done.
      * rewrite decide_False; [done |]. by apply not_elem_of_cons.
Qed.

Lemma counter_incr_NoDup (c : Counter) (k : str) :
  NoDup c.*1 -> NoDup (counter_incr c k).*1.
Proof.
  intros H. rewrite counter_incr_keys. case_decide as E; [done |].
  apply NoDup_app. split; [done | split; [| apply NoDup_singleton]].
  intros x Hx Hx'. apply list_elem_of_singleton in Hx'. by subst.
Qed.

Lemma counter_incr_positive (c : Counter) (k : str) :
  Forall (fun wc => 1 <= wc.2) c ->
  Forall (fun wc => 1 <= wc.2) (counter_incr c k).
Proof.
  induction 1 as [| [k' v] c Hv Hc IH]; simpl.
  - by repeat constructor.
  - case_decide; constructor; simpl in *; auto with lia.
Qed.

Lemma occ_cons (k x : str) (keys : list str) :
  occ k (x :: keys) = (if decide (k = x) then 1 else 0) + occ k keys.
Proof.
  unfold occ, len. case_decide as E.
  - rewrite filter_cons_True by done. simpl. lia.
  - rewrite filter_cons_False by done. lia.
Qed.

Lemma occ_notin (k : str) (keys : list str) : k ∉ keys -> occ k keys = 0.
Proof.
  induction keys as [| x keys IH]; intros Hn; [done |].
  apply not_elem_of_cons in Hn as [Hne Hn].
  rewrite occ_cons, decide_False, IH by done. done.
Qed.

Lemma lookup_add_keys (m : gmap str Z) (keys : list str) (k : str) :
  foldl add_key m keys !! k =
    if decide (k ∈ keys) then Some (default 0 (m !! k) + occ k keys)
    else m !! k.
Proof.
  revert m. induction keys as [| x keys IH]; intros m.
  - rewrite decide_False by apply not_elem_of_nil. done.
  - change (foldl add_key m (x :: keys)) with (foldl add_key (add_key m x) keys).
    rewrite IH, occ_cons. unfold add_key.
    destruct (decide (k = x)) as [-> | Hne].
    + rewrite lookup_insert_eq.
      rewrite (decide_True (P := x ∈ x :: keys)) by apply list_elem_of_here.
      destruct (decide (x ∈ keys)) as [Hin | Hn]; simpl.
      * f_equal; lia.
      * rewrite occ_notin by done. done.
    + rewrite lookup_insert_ne by done.
      destruct (decide (k ∈ keys)) as [Hin | Hn].
      * rewrite decide_True by (by apply list_elem_of_further). f_equal; lia.
      * rewrite decide_False; [done |]. by apply not_elem_of_cons.
Qed.

Lemma occ_app (k : str) (l1 l2 : list str) :
  occ k (l1 ++ l2) = occ k l1 + occ k l2.
Proof. unfold occ, len. rewrite filter_app, length_app. lia. Qed.

Lemma occ_Permutation (k : str) (l1 l2 : list str) :
  l1 ≡ₚ l2 -> occ k l1 = occ k l2.
Proof. intros H. unfold occ, len. by rewrite H. Qed.

Lemma occ_pos (k : str) (l : list str) : k ∈ l -> 1 <= occ k l.
Proof.
  intros H. unfold occ, len.
  assert (Hin : k ∈ filter (k =.) l) by (by apply list_elem_of_filter).
  destruct (filter (k =.) l); [by apply elem_of_nil in Hin | simpl; lia].
Qed.

Lemma add_keys_Permutation (keys keys' : list str) :
  keys ≡ₚ keys' -> foldl add_key ∅ keys = foldl add_key ∅ keys'.
Proof.
  intros Hp. apply map_eq. intros k.
  rewrite !lookup_add_keys, (occ_Permutation k _ _ Hp).
  destruct (decide (k ∈ keys)) as [Hin | Hn].
  - rewrite decide_True; [done | by rewrite <- Hp].
  - rewrite decide_False; [done | by rewrite <- Hp].
Qed.

(** Counting the keys of two lists apart and merging is counting them
    together, in any order. *)
Lemma add_keys_merge (keys keys1 keys2 : list str) :
  keys ≡ₚ keys1 ++ keys2 ->
  foldl add_key ∅ keys =
    Design.merge_counts (foldl add_key ∅ keys1) (foldl add_key ∅ keys2).
Proof.
  intros Hp. apply map_eq. intros k. unfold Design.merge_counts.
  rewrite lookup_union_with, !lookup_add_keys, !lookup_empty. simpl.
  rewrite (occ_Permutation k _ _ Hp), occ_app.
  assert (Hin : k ∈ keys <-> k ∈ keys1 \/ k ∈ keys2)
    by (by rewrite Hp, elem_of_app).
  pose proof (occ_notin k keys1) as H1.
  pose proof (occ_notin k keys2) as H2.
  repeat case_decide; simpl; try tauto; f_equal; try lia.
  - rewrite H2 by done. lia.
  - rewrite H1 by done. lia.
Qed.

End Counters.

(** ** The frequency aggregator *)

Section Aggregation.

Import Terminology.

Variable lower : str -> str.
Variable self : FrequencyAnalyzer.

Local Notation "'stops'" := (stop_words (preprocessor self)).

Lemma tags_distinct :
  lit "VERB" <> lit "NOUN" /\ lit "VERB" <> lit "ADJ" /\ lit "NOUN" <> lit "ADJ".
Proof. split_and!; intros H; vm_compute in H; discriminate. Qed.

Lemma contributes_one_bucket (b b' : Design.bucket) (t : Token) :
  Design.contributes lower stops b t && Design.contributes lower stops b' t =
    Design.contributes lower stops b t && bool_decide (b = b').
Proof.
  destruct tags_distinct as (H1 & H2 & H3).
  unfold Design.contributes.
  destruct (Design.qualifies lower stops t); [simpl | done].
  destruct b, b'; cbn [Design.bucket_tag];
    repeat case_bool_decide; simpl; congruence.
Qed.

Lemma process_token_pick (st : Counter * Counter * Counter) (t : Token)
    (b : Design.bucket) :
  pick b (process_token lower self st t) =
    if Design.contributes lower stops b t
    then counter_incr (pick b st) (lower (lemma_ t))
    else pick b st.
Proof.
  destruct tags_distinct as (H1 & H2 & H3).
  destruct st as [[verbs nouns] adjectives].
  unfold process_token, Design.contributes, Design.qualifies, str_in.
  rewrite (bool_decide_ext (len (text t) > 2) (2 < len (text t))) by lia.
  destruct (negb (is_stop t) && is_alpha t && bool_decide (2 < len (text t)));
    [| by destruct b].
  destruct (bool_decide (lower (lemma_ t) ∈ stops)); [by destruct b |].
  cbn [negb andb].
  destruct b; cbn [Design.bucket_tag pick];
    repeat case_decide; repeat case_bool_decide; try congruence; reflexivity.
Qed.

Lemma process_tokens_to_map (toks : list Token)
    (st : Counter * Counter * Counter) (b : Design.bucket) :
  to_map (pick b (foldl (process_token lower self) st toks)) =
    foldl add_key (to_map (pick b st)) (bucket_keys lower stops b toks).
Proof.
  revert st. induction toks as [| t toks IH]; intros st; [done |].
  change (foldl (process_token lower self) st (t :: toks))
    with (foldl (process_token lower self) (process_token lower self st t) toks).
  rewrite IH, process_token_pick. unfold bucket_keys.
  destruct (Design.contributes lower stops b t) eqn:E.
  - rewrite filter_cons_True by (by apply Is_true_true). by rewrite to_map_incr.
  - rewrite filter_cons_False by (by apply Is_true_false). done.
Qed.

Lemma process_docs_to_map (docs : list Doc)
    (st : Counter * Counter * Counter) (b : Design.bucket) :
  to_map (pick b (foldl (fun st doc => _process_doc_tokens lower self doc st)
                        st docs)) =
    foldl add_key (to_map (pick b st))
      (docs ≫= fun doc => bucket_keys lower stops b (tokens doc)).
Proof.
  revert st. induction docs as [| d docs IH]; intros st; [done |].
  change (foldl ?f st (d :: docs))
    with (foldl f (_process_doc_tokens lower self d st) docs).
  rewrite IH. unfold _process_doc_tokens.
  rewrite process_tokens_to_map, bind_cons, foldl_app. done.
Qed.

Lemma get_pos_frequencies_counter (doc_chunks : doc_chunks_arg)
    (b : Design.bucket) :
  counter (pick b (get_pos_frequencies lower self doc_chunks)) =
    pick b (pos_counters lower self doc_chunks).
Proof.
  unfold get_pos_frequencies.
  destruct (pos_counters lower self doc_chunks) as [[v n] a].
  by destruct b.
Qed.

(** The order of the chunks does not change the Count Tables. *)
Lemma aggregation_order (chunks chunks' : list Doc) (b : Design.bucket) :
  chunks ≡ₚ chunks' ->
  to_map (counter (pick b (get_pos_frequencies lower self (ChunkList chunks)))) =
  to_map (counter (pick b (get_pos_frequencies lower self (ChunkList chunks')))).
Proof.
  intros Hp. rewrite !get_pos_frequencies_counter. unfold pos_counters.
  rewrite !process_docs_to_map.
  assert (E : to_map (pick b (([], [], []) : Counter * Counter * Counter)) = ∅)
    by (by destruct b).
  rewrite E. apply add_keys_Permutation. by rewrite Hp.
Qed.

(** The counters the aggregator builds are Count Tables. *)
Lemma process_token_count_table (st : Counter * Counter * Counter) (t : Token) :
  (forall b, count_table (pick b st)) ->
  forall b, count_table (pick b (process_token lower self st t)).
Proof.
  intros H b. rewrite process_token_pick.
  destruct (Design.contributes lower stops b t); [| apply H].
  destruct (H b) as [Hnd Hpos].
  split; [by apply counter_incr_NoDup | by apply counter_incr_positive].
Qed.

Lemma pos_counters_count_table (doc_chunks : doc_chunks_arg) (b : Design.bucket) :
  count_table (pick b (pos_counters lower self doc_chunks)).
Proof.
  assert (H0 : forall b, count_table (pick b (([], [], []) : Counter * Counter * Counter))).
  { intros []; split; simpl; constructor. }
  assert (Htoks : forall toks st, (forall b, count_table (pick b st)) ->
            forall b, count_table (pick b (foldl (process_token lower self) st toks))).
  { induction toks as [| t toks IH]; intros st Hst; [done |].
    apply IH. by apply process_token_count_table. }
  revert b. destruct doc_chunks as [docs | doc]; simpl.
  - generalize dependent (([], [], []) : Counter * Counter * Counter).
    induction docs as [| d docs IH]; intros st Hst; [done |].
    apply IH. by apply Htoks.
  - by apply Htoks.
Qed.

(** C5. Aggregation is an order-independent, associative fold: when the
    chunks split into two groups, in any order, each bucket's Count Table
    for all the chunks is the key-wise sum of the bucket's Count Tables for
    the two groups. *)
Theorem aggregation_merges (chunks g1 g2 : list Doc) (b : Design.bucket) :
  chunks ≡ₚ g1 ++ g2 ->
  to_map (counter (pick b (get_pos_frequencies lower self (ChunkList chunks)))) =
    Design.merge_counts
      (to_map (counter (pick b (get_pos_frequencies lower self (ChunkList g1)))))
      (to_map (counter (pick b (get_pos_frequencies lower self (ChunkList g2))))).
Proof.
  intros Hp. rewrite !get_pos_frequencies_counter. unfold pos_counters.
  rewrite !process_docs_to_map.
  assert (E : to_map (pick b (([], [], []) : Counter * Counter * Counter)) = ∅)
    by (by destruct b).
  rewrite E. apply add_keys_merge.
  rewrite Hp, bind_app. done.
Qed.

End Aggregation.

(** ** Sorting *)

Section StrOrder.

Lemma str_ltb_key_lt (a b : str) : str_ltb a b = true <-> Design.key_lt a b.
Proof.
  revert b. induction a as [| x a IH]; intros [| y b]; simpl.
  - split; [done | inversion 1].
  - split; [intros _; constructor | done].
  - split; [done | inversion 1].
  - destruct (N.ltb_spec x y) as [Hlt | Hge].
    + split; [intros _; by constructor | done].
    + destruct (N.eqb_spec x y) as [-> | Hne].
      * rewrite IH. split; [by constructor |].
        inversion 1; subst; [lia | done].
      * split; [done |]. inversion 1; subst; [lia | done].
Qed.

Lemma str_ltb_irrefl (a : str) : str_ltb a a = false.
Proof.
  induction a as [| x a IH]; [done |]. simpl.
  by rewrite N.ltb_irrefl, N.eqb_refl.
Qed.

Lemma str_ltb_asym (a b : str) : str_ltb a b = true -> str_ltb b a = false.
Proof.
  revert b. induction a as [| x a IH]; intros [| y b]; simpl; try done.
  destruct (N.ltb_spec x y), (N.ltb_spec y x), (N.eqb_spec x y), (N.eqb_spec y x);
    try done; try lia; auto.
Qed.

Lemma str_ltb_total (a b : str) :
  str_ltb a b = false -> str_ltb b a = false -> a = b.
Proof.
  revert b. induction a as [| x a IH]; intros [| y b]; simpl; try done.
  destruct (N.ltb_spec x y), (N.ltb_spec y x), (N.eqb_spec x y), (N.eqb_spec y x);
    try done; try lia.
  intros. subst. f_equal. auto.
Qed.

Lemma str_ltb_cotrans (a b c : str) :
  str_ltb a c = true -> str_ltb a b = true \/ str_ltb b c = true.
Proof.
  revert b c. induction a as [| x a IH]; intros [| y b] [| z c]; simpl;
    try done; auto.
  destruct (N.ltb_spec x z), (N.ltb_spec x y), (N.ltb_spec y z),
    (N.eqb_spec x z), (N.eqb_spec x y), (N.eqb_spec y z);
    try done; try lia; auto.
Qed.

End StrOrder.

Section StableSort.

Context {A : Type} (lt : A -> A -> bool).

Hypothesis lt_asym : forall x y, lt x y = true -> lt y x = false.
Hypothesis not_after_trans :
  forall x y z, not_after lt x y -> not_after lt y z -> not_after lt x z.

Lemma sorted_insert_Permutation (x : A) (l : list A) :
  sorted_insert lt x l ≡ₚ x :: l.
Proof.
  induction l as [| y l IH]; simpl; [done |].
  destruct (lt y x); [| done]. by rewrite IH, Permutation_swap.
Qed.

Lemma sorted_Permutation (l : list A) : sorted lt l ≡ₚ l.
Proof.
  induction l as [| x l IH]; simpl; [done |].
  by rewrite sorted_insert_Permutation, IH.
Qed.

Lemma sorted_insert_StronglySorted (x : A) (l : list A) :
  StronglySorted (not_after lt) l ->
  StronglySorted (not_after lt) (sorted_insert lt x l).
Proof.
  induction 1 as [| y l Hl IH Hy]; simpl.
  - by repeat constructor.
  - destruct (lt y x) eqn:E.
    + constructor; [exact IH |].
      rewrite sorted_insert_Permutation. constructor; [| done].
      by apply lt_asym.
    + constructor; [by constructor |].
      constructor; [exact E |].
      eapply Forall_impl; [exact Hy |]. intros z Hz.
      by apply (not_after_trans x y z).
Qed.

Lemma sorted_StronglySorted (l : list A) :
  StronglySorted (not_after lt) (sorted lt l).
Proof.
  induction l as [| x l IH]; simpl; [constructor |].
  by apply sorted_insert_StronglySorted.
Qed.

(** Stability: the elements of a class that [lt] does not separate keep
    their order. *)
Lemma sorted_insert_stable (tie : A -> Prop) `{!forall y, Decision (tie y)}
    (x : A) (l : list A) :
  (forall y, tie x -> tie y -> lt y x = false) ->
  filter tie (sorted_insert lt x l) = filter tie (x :: l).
Proof.
  intros Htie. induction l as [| y l IH]; simpl; [done |].
  destruct (lt y x) eqn:E; [| done].
  destruct (decide (tie x)) as [Hx | Hx].
  - assert (Hy : ~ tie y) by (intros Hy; specialize (Htie y Hx Hy); congruence).
    rewrite (filter_cons_True tie x) by done.
    rewrite !(filter_cons_False tie y) by done.
    by rewrite IH, filter_cons_True.
  - rewrite (filter_cons_False tie x) by done.
    rewrite !(filter_cons tie y), IH.
    by rewrite (filter_cons_False tie x).
Qed.

Lemma sorted_stable (tie : A -> Prop) `{!forall y, Decision (tie y)} (l : list A) :
  (forall x y, tie x -> tie y -> lt y x = false) ->
  filter tie (sorted lt l) = filter tie l.
Proof.
  intros Htie. induction l as [| x l IH]; simpl; [done |].
  rewrite sorted_insert_stable by (intros y; apply Htie).
  by rewrite !(filter_cons tie x), IH.
Qed.

End StableSort.

Lemma StronglySorted_mono {A} (R S : relation A) (l : list A) :
  (forall x y, R x y -> S x y) -> StronglySorted R l -> StronglySorted S l.
Proof.
  intros HRS. induction 1 as [| x l Hl IH Hx]; constructor; [done |].
  eapply Forall_impl; [exact Hx | auto].
Qed.

Section Rankings.

Import Terminology.

Lemma not_after_rank (x y : str * Z) :
  not_after rank_lt x y <->
  y.2 < x.2 \/ (x.2 = y.2 /\ str_ltb y.1 x.1 = false).
Proof.
  unfold not_after, rank_lt.
  case_decide; [| case_bool_decide]; split; intros; try done;
    try lia; intuition (try lia; try done).
Qed.

Lemma rank_lt_asym (x y : str * Z) : rank_lt x y = true -> rank_lt y x = false.
Proof.
  unfold rank_lt. repeat case_decide; repeat case_bool_decide; try done; try lia.
  apply str_ltb_asym.
Qed.

Lemma not_after_rank_trans (x y z : str * Z) :
  not_after rank_lt x y -> not_after rank_lt y z -> not_after rank_lt x z.
Proof.
  rewrite !not_after_rank.
  intros [H1 | [H1 H1']] [H2 | [H2 H2']]; try (left; lia).
  right. split; [lia |].
  destruct (str_ltb z.1 x.1) eqn:E; [| done].
  destruct (str_ltb_cotrans _ y.1 _ E); congruence.
Qed.

Lemma not_after_longest (x y : str * Z) :
  not_after (fun a b => longest_lt b a) x y <-> Design.longest_before x y.
Proof.
  unfold not_after, longest_lt, Design.longest_before.
  case_decide; case_bool_decide; split; intros; try done; lia.
Qed.

Lemma longest_lt_asym (x y : str * Z) :
  longest_lt y x = true -> longest_lt x y = false.
Proof.
  unfold longest_lt. repeat case_decide; repeat case_bool_decide; try done; lia.
Qed.

Lemma not_after_longest_trans (x y z : str * Z) :
  not_after (fun a b => longest_lt b a) x y ->
  not_after (fun a b => longest_lt b a) y z ->
  not_after (fun a b => longest_lt b a) x z.
Proof. rewrite !not_after_longest. unfold Design.longest_before. lia. Qed.

(** The ranking index of a table with distinct keys is strictly ordered:
    descending count, ties broken by ascending key. *)
Lemma sorted_items_ranked (c : Counter) :
  NoDup c.*1 -> StronglySorted Design.ranks_before (sorted rank_lt c).
Proof.
  intros Hnd.
  assert (Hnd' : NoDup (sorted rank_lt c).*1)
    by (by rewrite (sorted_Permutation rank_lt c)).
  pose proof (sorted_StronglySorted rank_lt rank_lt_asym not_after_rank_trans c) as Hs.
  induction Hs as [| x l Hl IH Hx]; [constructor |].
  rewrite fmap_cons in Hnd'. apply NoDup_cons in Hnd' as [Hx' Hnd'].
  constructor; [by apply IH |].
  apply Forall_forall. intros y Hy.
  rewrite Forall_forall in Hx. specialize (Hx y Hy).
  apply not_after_rank in Hx as [Hlt | [Heq Hk]]; [by left | right].
  split; [done |]. apply str_ltb_key_lt.
  destruct (str_ltb x.1 y.1) eqn:E; [done | exfalso].
  apply Hx'. rewrite (str_ltb_total _ _ E Hk).
  by apply list_elem_of_fmap_2.
Qed.

Lemma sorted_reverse_longest (c : Counter) :
  StronglySorted Design.longest_before (sorted_reverse longest_lt c).
Proof.
  unfold sorted_reverse.
  eapply StronglySorted_mono;
    [| apply (sorted_StronglySorted (fun a b => longest_lt b a))].
  - intros x y. apply not_after_longest.
  - intros x y. apply longest_lt_asym.
  - apply not_after_longest_trans.
Qed.

Lemma sorted_reverse_longest_stable (c : Counter) (x : str * Z) :
  filter (fun y : str * Z => len y.1 = len x.1 /\ y.2 = x.2)
         (sorted_reverse longest_lt c) =
  filter (fun y : str * Z => len y.1 = len x.1 /\ y.2 = x.2) c.
Proof.
  unfold sorted_reverse. apply sorted_stable.
  intros a b [Ha Ha'] [Hb Hb']. unfold longest_lt.
  rewrite decide_True by lia. apply bool_decide_eq_false. lia.
Qed.

End Rankings.

(** ** Frequency distributions *)

Section Distributions.

Import Terminology.

Lemma slice_to_len {A} (l : list A) : slice_to l (Some (len l)) = l.
Proof.
  unfold slice_to, len.
  destruct (Z.leb_spec 0 (Z.of_nat (length l))); [| lia].
  rewrite Nat2Z.id. by apply take_ge.
Qed.

Lemma filter_all {A} (P : A -> Prop) `{!forall x, Decision (P x)} (l : list A) :
  Forall P l -> filter P l = l.
Proof.
  induction 1 as [| x l Hx Hl IH]; [done |].
  by rewrite filter_cons_True, IH.
Qed.

Lemma filter_none {A} (P : A -> Prop) `{!forall x, Decision (P x)} (l : list A) :
  Forall (fun x => ~ P x) l -> filter P l = [].
Proof.
  induction 1 as [| x l Hx Hl IH]; [done |].
  by rewrite filter_cons_False.
Qed.

Lemma sorted_items_Permutation (c : Counter) :
  _sorted_items (FrequencyDist_init c) ≡ₚ c.
Proof. apply sorted_Permutation. Qed.

Lemma least_common_all (c : Counter) (n : option Z) (min_freq : Z) :
  Forall (fun wc => min_freq <= wc.2) c ->
  least_common (FrequencyDist_init c) n min_freq =
    Returns (slice_to (reverse (_sorted_items (FrequencyDist_init c))) n).
Proof.
  intros Hc. unfold least_common.
  rewrite filter_all; [by destruct n |].
  rewrite sorted_items_Permutation.
  eapply Forall_impl; [exact Hc |]. simpl. intros; lia.
Qed.

(** C6, as the code has it. [get_stats] on a distribution whose counter
    has no entries raises [ValueError], from [max] of an empty sequence,
    after [np.mean] and [np.median] have returned [nan]; on a counter with
    entries it returns the statistics, whose total is the sum of the
    counts and whose number of unique words is the number of entries.
    There is no EmptyDistribution result. *)
Theorem get_stats_empty_raises_ValueError
    (items : list (str * Z)) (wc : str * Z) (c : Counter) :
  get_stats {| counter := []; _sorted_items := items |} = Raises ValueError
  /\ get_stats {| counter := wc :: c; _sorted_items := items |} =
       Returns {| total_occurrences := py_sum (wc :: c).*2;
                  unique_words := len (wc :: c);
                  mean_frequency := np_mean (wc :: c).*2;
                  median_frequency := np_median (wc :: c).*2;
                  max_frequency := foldl Z.max wc.2 c.*2;
                  min_frequency := foldl Z.min wc.2 c.*2 |}.
Proof. split; reflexivity. Qed.

(** C7, as the code has it. [get_range] with [end < start] returns the
    empty sequence, and [least_common] with a negative [min_freq] returns
    every entry of the Count Table, in reverse ranking order, cut to the
    first [n]: neither call reports an error. *)
Theorem invalid_bounds_return_normally
    (c : Counter) (start end_ min_freq : Z) (n : option Z) :
  end_ < start -> min_freq < 0 -> count_table c ->
  get_range (FrequencyDist_init c) (Some start) (Some end_) = Returns []
  /\ least_common (FrequencyDist_init c) n min_freq =
       Returns (slice_to (reverse (_sorted_items (FrequencyDist_init c))) n).
Proof.
  intros Hse Hm [_ Hpos]. split.
  - unfold get_range. f_equal. apply filter_none, Forall_forall.
    intros wc _ H. apply andb_prop_elim in H as [H1 H2].
    apply bool_decide_unpack in H1, H2. lia.
  - apply least_common_all. eapply Forall_impl; [exact Hpos |].
    simpl. intros; lia.
Qed.

(** C8. For a distribution over a Count Table with [n] entries,
    [most_common(n)] returns the whole ranking index and [least_common(n)],
    with the default minimum frequency 1, returns its reversal, so each
    call lists every key of the table exactly once; the ranking index holds
    exactly the table's entries, in descending order of count with ties
    broken by ascending key. *)
Theorem most_common_reversed_is_least_common (c : Counter) :
  count_table c ->
  most_common (FrequencyDist_init c) (Some (len c)) =
    Returns (_sorted_items (FrequencyDist_init c))
  /\ least_common (FrequencyDist_init c) (Some (len c)) 1 =
       Returns (reverse (_sorted_items (FrequencyDist_init c)))
  /\ (_sorted_items (FrequencyDist_init c)).*1 ≡ₚ c.*1
  /\ NoDup (_sorted_items (FrequencyDist_init c)).*1
  /\ _sorted_items (FrequencyDist_init c) ≡ₚ c
  /\ StronglySorted Design.ranks_before (_sorted_items (FrequencyDist_init c)).
Proof.
  intros [Hnd Hpos].
  pose proof (sorted_items_Permutation c) as Hp.
  assert (Hlen : len c = len (_sorted_items (FrequencyDist_init c)))
    by (unfold len; by rewrite Hp).
  split_and!.
  - unfold most_common. by rewrite Hlen, slice_to_len.
  - rewrite least_common_all by done. f_equal.
    rewrite Hlen. unfold len. rewrite <- length_reverse. apply slice_to_len.
  - by rewrite Hp.
  - by rewrite Hp.
  - exact Hp.
  - by apply sorted_items_ranked.
Qed.

Lemma stable_ranking_unique (l l' : list (str * Z)) :
  l ≡ₚ l' ->
  StronglySorted Design.longest_before l ->
  StronglySorted Design.longest_before l' ->
  (forall x : str * Z,
     filter (fun y : str * Z => len y.1 = len x.1 /\ y.2 = x.2) l =
     filter (fun y : str * Z => len y.1 = len x.1 /\ y.2 = x.2) l') ->
  l = l'.
Proof.
  revert l'. induction l as [| a l IH]; intros l' Hp Hs Hs' Hf.
  - by apply Permutation_nil in Hp.
  - destruct l' as [| b l']; [by apply Permutation_sym, Permutation_nil_cons in Hp |].
    apply StronglySorted_inv in Hs as [Hs Ha].
    apply StronglySorted_inv in Hs' as [Hs' Hb].
    rewrite Forall_forall in Ha, Hb.
    assert (E : a = b).
    { assert (Ha' : a ∈ b :: l') by (rewrite <- Hp; left).
      assert (Hb' : b ∈ a :: l) by (rewrite Hp; left).
      apply elem_of_cons in Ha' as [-> | Ha']; [done |].
      apply elem_of_cons in Hb' as [-> | Hb']; [done |].
      assert (Hba : Design.longest_before b a) by (by apply Hb).
      assert (Hab : Design.longest_before a b) by (by apply Ha).
      assert (Htie : len b.1 = len a.1 /\ b.2 = a.2).
      { destruct Hab as [Hab | [Hab Hab']], Hba as [Hba | [Hba Hba']];
          lia. }
      specialize (Hf a).
      rewrite filter_cons_True in Hf by done.
      rewrite (filter_cons_True _ b) in Hf by done.
      by injection Hf. }
    subst b. f_equal. apply IH; [by eapply Permutation_cons_inv | done | done |].
    intros x. specialize (Hf x).
    destruct (decide (len a.1 = len x.1 /\ a.2 = x.2)) as [Hx | Hx].
    + rewrite !filter_cons_True in Hf by done. by injection Hf.
    + by rewrite !filter_cons_False in Hf by done.
Qed.

(** C10, as the code has it. [get_longest(n)] returns the first [n] of the
    counter's entries sorted by key length descending, then count
    descending; entries that tie on both keep the order the counter has
    them in, whether or not the table has such entries, and this
    determines the result: it is the first [n] of every arrangement of the
    entries that is sorted in this way and keeps the tied entries in the
    counter's order.  So two distributions built from equal Count Tables
    return the same sequence when no two entries of the table have both
    the same key length and the same count. *)
Theorem get_longest_tie_free (c1 c2 : Counter) (n : Z) :
  (exists l,
     get_longest (FrequencyDist_init c1) n = Returns (slice_to l (Some n))
     /\ l ≡ₚ c1
     /\ StronglySorted Design.longest_before l
     /\ forall x : str * Z,
          filter (fun y : str * Z => len y.1 = len x.1 /\ y.2 = x.2) l =
          filter (fun y : str * Z => len y.1 = len x.1 /\ y.2 = x.2) c1)
  /\ (forall l' : list (str * Z),
        l' ≡ₚ c1 ->
        StronglySorted Design.longest_before l' ->
        (forall x : str * Z,
           filter (fun y : str * Z => len y.1 = len x.1 /\ y.2 = x.2) l' =
           filter (fun y : str * Z => len y.1 = len x.1 /\ y.2 = x.2) c1) ->
        get_longest (FrequencyDist_init c1) n = Returns (slice_to l' (Some n)))
  /\ (NoDup c1.*1 -> NoDup c2.*1 -> to_map c1 = to_map c2 -> tie_free c1 ->
      get_longest (FrequencyDist_init c1) n =
        get_longest (FrequencyDist_init c2) n).
Proof.
  pose proof (sorted_Permutation (fun a b => longest_lt b a) c1) as Hp1.
  pose proof (sorted_Permutation (fun a b => longest_lt b a) c2) as Hp2.
  split_and!.
  - exists (sorted_reverse longest_lt c1).
    split_and!; [done | exact Hp1 | apply sorted_reverse_longest |].
    intros x. apply sorted_reverse_longest_stable.
  - intros l' Hp Hs Hf. unfold get_longest. cbn [counter FrequencyDist_init].
    do 2 f_equal. apply stable_ranking_unique.
    + unfold sorted_reverse. by rewrite Hp1, Hp.
    + apply sorted_reverse_longest.
    + done.
    + intros x. by rewrite sorted_reverse_longest_stable, Hf.
  - intros Hnd1 Hnd2 Hmap Htie.
    assert (Hp : c1 ≡ₚ c2) by (by apply (list_to_map_inj (M := gmap str))).
    assert (E : sorted_reverse longest_lt c1 = sorted_reverse longest_lt c2);
      [| unfold get_longest; simpl; by rewrite E].
    apply (StronglySorted_unique_strong Design.longest_before).
    + unfold sorted_reverse. intros x y Hx Hy Hxy Hyx.
      rewrite Hp1 in Hx. rewrite Hp2, <- Hp in Hy.
      destruct Hxy as [Hxy | [Hxy Hxy']], Hyx as [Hyx | [Hyx Hyx']]; try lia.
      apply Htie; [done | done | done | by apply Z.le_antisymm].
    + apply sorted_reverse_longest.
    + apply sorted_reverse_longest.
    + unfold sorted_reverse. by rewrite Hp1, Hp2.
Qed.

End Distributions.

(** ** The text chunker *)

Section Chunker.

Import Terminology.

Variable self : TextPreprocessor.

Local Notation "'chunk_of'" := (fun g => nlp self (join [NL; NL] g)).

Lemma process_fold (paras : list str) (groups : list (list str))
    (cur : list str) (n : Z) :
  foldl (process_step self) (chunk_of <$> groups, cur, n) paras =
    let '(groups', cur', n') :=
      foldl (group_step (chunk_size self)) (groups, cur, n) paras in
    (chunk_of <$> groups', cur', n').
Proof.
  revert groups cur n. induction paras as [| p paras IH]; intros groups cur n.
  - done.
  - change (foldl ?f ?a (p :: paras)) with (foldl f (f a p) paras).
    unfold process_step at 2, group_step at 2.
    case_bool_decide.
    + rewrite <- IH. by rewrite fmap_app.
    + by rewrite <- IH.
Qed.

Lemma process_text_groups (text : str) :
  process_text self text =
    chunk_of <$> chunk_groups (chunk_size self) (split_paragraphs text).
Proof.
  unfold process_text, chunk_groups.
  pose proof (process_fold (split_paragraphs text) [] [] 0) as H.
  change (chunk_of <$> []) with (@nil Doc) in H. rewrite H. clear H.
  destruct (foldl _ _ _) as [[groups cur] n]. simpl.
  destruct cur; [done |]. by rewrite fmap_app.
Qed.

Lemma total_len_app (g1 g2 : list str) :
  total_len (g1 ++ g2) = total_len g1 + total_len g2.
Proof. induction g1 as [| p g1 IH]; simpl; lia. Qed.

Lemma group_fold_inv (size : Z) (paras : list str) (groups : list (list str))
    (cur : list str) (n : Z) :
  0 <= size ->
  Forall (group_ok size) groups -> group_ok size cur -> n = total_len cur ->
  let st := foldl (group_step size) (groups, cur, n) paras in
  Forall (group_ok size) st.1.1 /\ group_ok size st.1.2
  /\ concat st.1.1 ++ st.1.2 = concat groups ++ cur ++ paras.
Proof.
  intros Hsize. revert groups cur n.
  induction paras as [| p paras IH]; intros groups cur n Hg Hc Hn.
  - simpl. by rewrite app_nil_r.
  - change (foldl ?f ?a (p :: paras)) with (foldl f (f a p) paras).
    unfold group_step at 2. case_bool_decide as Hgt.
    + destruct (IH (groups ++ [cur]) [p] (len p)) as (H1 & H2 & H3).
      * apply Forall_app. split; [done | by constructor].
      * destruct (decide (len p <= size)); [left | right].
        -- simpl. lia.
        -- exists p. split; [done | lia].
      * simpl. lia.
      * split_and!; [done | done |].
        rewrite H3, concat_app. simpl. by rewrite app_nil_r, <- !app_assoc.
    + destruct (IH groups (cur ++ [p]) (n + len p)) as (H1 & H2 & H3).
      * done.
      * left. rewrite total_len_app. simpl. lia.
      * rewrite total_len_app. simpl. lia.
      * split_and!; [done | done |]. by rewrite H3, <- !app_assoc.
Qed.

Lemma chunk_groups_ok (size : Z) (paras : list str) :
  0 <= size ->
  Forall (group_ok size) (chunk_groups size paras)
  /\ concat (chunk_groups size paras) = paras.
Proof.
  intros Hsize. unfold chunk_groups.
  destruct (group_fold_inv size paras [] [] 0) as (H1 & H2 & H3);
    [done | constructor | left; simpl; lia | done |].
  destruct (foldl _ _ _) as [[groups cur] n]. simpl in *.
  destruct cur as [| p cur].
  - split; [done |]. by rewrite app_nil_r in H3.
  - split; [apply Forall_app; split; [done | by constructor] |].
    rewrite concat_app. simpl. by rewrite app_nil_r.
Qed.

Lemma len_app {A} (l1 l2 : list A) : len (l1 ++ l2) = len l1 + len l2.
Proof. unfold len. rewrite length_app. lia. Qed.

Lemma len_join (g : list str) :
  len (join [NL; NL] g) = total_len g + 2 * Z.max 0 (len g - 1).
Proof.
  induction g as [| p g IH]; [done |].
  destruct g as [| q g].
  - simpl. unfold len. simpl. lia.
  - change (join [NL; NL] (p :: q :: g))
      with (p ++ [NL; NL] ++ join [NL; NL] (q :: g)).
    rewrite !len_app, IH. simpl. unfold len. simpl. lia.
Qed.

(** C2, as the code has it. For a [chunk_size] that is not negative, the
    paragraphs of every chunk total at most [chunk_size] characters, unless
    the chunk is a single paragraph that alone exceeds the limit; the two-character separators that join the
    paragraphs of a chunk are not counted, so a chunk of [k] paragraphs has
    up to [chunk_size + 2 * (k - 1)] characters.  The chunks hold the
    paragraphs of the text, whole and in order. *)
Theorem chunk_paragraphs_within_limit (text : str) :
  0 <= chunk_size self ->
  exists groups : list (list str),
    process_text self text = (fun g => nlp self (join [NL; NL] g)) <$> groups
    /\ concat groups = split_paragraphs text
    /\ Forall (fun g =>
         (total_len g <= chunk_size self
          \/ exists p, g = [p] /\ chunk_size self < len p)
         /\ len (join [NL; NL] g) = total_len g + 2 * Z.max 0 (len g - 1))
       groups.
Proof.
  intros Hsize.
  exists (chunk_groups (chunk_size self) (split_paragraphs text)).
  destruct (chunk_groups_ok (chunk_size self) (split_paragraphs text) Hsize)
    as [Hok Hcat].
  split_and!; [apply process_text_groups | exact Hcat |].
  eapply Forall_impl; [exact Hok |]. intros g Hg.
  split; [exact Hg | apply len_join].
Qed.

End Chunker.

Section Paragraphs.

Import Terminology.

Lemma blank_run_boundary (x : str) (k : nat) :
  blank_run x = Some k ->
  exists m b, x = m ++ [NL] ++ b /\ Forall (fun c => isspace c = true) m.
Proof.
  revert k. induction x as [| c r IH]; intros k; simpl; [done |].
  destruct (isspace c) eqn:Hc; [| done].
  destruct (blank_run r) as [k' |] eqn:Hr.
  - intros _. destruct (IH k' eq_refl) as (m & b & -> & Hm).
    exists (c :: m), b. split; [done | by constructor].
  - destruct (N.eqb_spec c NL) as [-> | Hne]; [| done].
    intros _. exists [], r. split; [done | constructor].
Qed.

Lemma re_split_no_boundary (x cur : str) :
  ~ Design.has_boundary x -> re_split_go O cur x = [reverse cur ++ x].
Proof.
  revert cur. induction x as [| c r IH]; intros cur Hnb; simpl.
  - by rewrite app_nil_r.
  - assert (Hr : ~ Design.has_boundary r).
    { intros (a & m & b & -> & Hm). apply Hnb. by exists (c :: a), m, b. }
    assert (E : re_split_go O (c :: cur) r = [reverse cur ++ c :: r]).
    { rewrite IH by done. by rewrite reverse_cons, <- app_assoc. }
    destruct (N.eqb_spec c NL) as [-> | Hne]; [| exact E].
    destruct (blank_run r) as [k |] eqn:Hk; [| exact E].
    exfalso. apply Hnb.
    destruct (blank_run_boundary r k Hk) as (m & b & -> & Hm).
    by exists [], m, b.
Qed.

Lemma split_paragraphs_no_boundary (text : str) :
  ~ Design.has_boundary text -> strip text <> [] ->
  split_paragraphs text = [strip text].
Proof.
  intros Hnb Hne. unfold split_paragraphs, re_split_blank_lines.
  rewrite re_split_no_boundary by done.
  change (reverse [] ++ text) with text.
  by rewrite filter_cons_True, filter_nil.
Qed.

Lemma lstrip_all_space (x : str) :
  Forall (fun c => isspace c = true) x -> lstrip x = [].
Proof. induction 1 as [| c x Hc Hx IH]; simpl; [done | by rewrite Hc]. Qed.

Lemma strip_all_space (x : str) :
  Forall (fun c => isspace c = true) x -> strip x = [].
Proof. intros H. unfold strip. by rewrite lstrip_all_space. Qed.

Lemma re_split_all_space (x cur : str) (skip : nat) :
  Forall (fun c => isspace c = true) cur ->
  Forall (fun c => isspace c = true) x ->
  Forall (Forall (fun c => isspace c = true)) (re_split_go skip cur x).
Proof.
  intros Hcur Hx. revert skip cur Hcur.
  induction Hx as [| c r Hc Hr IH]; intros skip cur Hcur; simpl.
  - constructor; [| constructor]. by apply Forall_reverse.
  - destruct skip as [| k]; [| by apply IH].
    assert (Forall (Forall (fun c => isspace c = true))
              (re_split_go O (c :: cur) r))
      by (apply IH; by constructor).
    destruct (c =? NL)%N; [| done].
    destruct (blank_run r); [| done].
    constructor; [by apply Forall_reverse | apply IH; constructor].
Qed.

Lemma split_paragraphs_all_space (text : str) :
  Forall (fun c => isspace c = true) text -> split_paragraphs text = [].
Proof.
  intros H. unfold split_paragraphs, re_split_blank_lines.
  rewrite filter_none; [done |].
  eapply Forall_impl; [apply (re_split_all_space text [] O); [constructor | done] |].
  intros p Hp Hne. by apply Hne, strip_all_space.
Qed.

Variable self : TextPreprocessor.

(** What the loop does with a text of one paragraph that is longer than
    [chunk_size]: it closes the current chunk, which is still empty, before
    it starts the chunk of the paragraph, so that an empty chunk comes
    first.  (The last chunk is only closed [if current_chunk].) *)
Lemma process_text_oversized_paragraph (text : str) :
  ~ Design.has_boundary text -> strip text <> [] ->
  chunk_size self < len (strip text) ->
  process_text self text = [nlp self []; nlp self (strip text)].
Proof.
  intros Hnb Hne Hlen. unfold process_text.
  rewrite split_paragraphs_no_boundary by done. simpl.
  rewrite bool_decide_true by lia. done.
Qed.

(** C3. What [process_text] does with a text that has no blank-line
    paragraph boundary and is not only whitespace.  When the trimmed text
    is no longer than [chunk_size] it returns exactly one chunk, the
    trimmed text.  When it is longer it returns two chunks and not the
    single oversized chunk: the loop closes the current chunk, which is
    still empty, before it starts the chunk of the paragraph, so an empty
    chunk comes first (the last chunk is only closed [if current_chunk],
    the chunk in the loop is closed without that test).  A text of
    whitespace only gives no chunk, for every [chunk_size]. *)
Theorem no_boundary_text_chunks (text blank : str) :
  (~ Design.has_boundary text -> strip text <> [] ->
   process_text self text =
     if bool_decide (len (strip text) <= chunk_size self)
     then [nlp self (strip text)]
     else [nlp self []; nlp self (strip text)])
  /\ (Forall (fun c => isspace c = true) blank -> process_text self blank = []).
Proof.
  split.
  - intros Hnb Hne. case_bool_decide as Hlen.
    + unfold process_text. rewrite split_paragraphs_no_boundary by done. simpl.
      rewrite bool_decide_false by lia. done.
    + apply process_text_oversized_paragraph; [done | done | lia].
  - intros Hblank. unfold process_text. by rewrite split_paragraphs_all_space.
Qed.

End Paragraphs.

(** ** The phrase aggregator *)

Section Phrases.

Import Terminology.

Variable lower : str -> str.

Lemma split_go_word (w cur rest : str) :
  Forall (fun c => isspace c = false) w ->
  split_go cur (w ++ rest) = split_go (reverse w ++ cur) rest.
Proof.
  intros Hw. revert cur. induction Hw as [| c w Hc Hw IH]; intros cur; [done |].
  simpl. rewrite Hc, IH. by rewrite reverse_cons, <- app_assoc.
Qed.

Lemma split_go_join (w : str) (ws : list str) (cur : str) :
  Forall Design.one_word (w :: ws) ->
  split_go cur (join (lit " ") (w :: ws)) = (reverse cur ++ w) :: ws.
Proof.
  revert w cur. induction ws as [| w' ws IH]; intros w cur Hws.
  - apply Forall_cons in Hws as [[Hne Hw] _].
    simpl. rewrite <- (app_nil_r w) at 1.
    rewrite split_go_word by done. simpl.
    rewrite reverse_app, reverse_involutive.
    destruct (reverse w ++ cur) eqn:E; [| done].
    apply app_eq_nil in E as [E _].
    apply (f_equal reverse) in E. rewrite reverse_involutive in E. done.
  - apply Forall_cons in Hws as [[Hne Hw] Hws].
    change (join (lit " ") (w :: w' :: ws))
      with (w ++ lit " " ++ join (lit " ") (w' :: ws)).
    rewrite split_go_word by done.
    change (lit " " ++ join (lit " ") (w' :: ws))
      with (32%N :: join (lit " ") (w' :: ws)).
    cbn [split_go]. change (isspace 32%N) with true. cbv iota.
    rewrite IH by done.
    rewrite reverse_app, reverse_involutive. cbn [reverse app].
    destruct (reverse w ++ cur) eqn:E; [| done].
    apply app_eq_nil in E as [E _].
    apply (f_equal reverse) in E. rewrite reverse_involutive in E. done.
Qed.

Lemma split_join_words (ws : list str) :
  Forall Design.one_word ws -> split (join (lit " ") ws) = ws.
Proof.
  destruct ws as [| w ws]; [done |]. intros H.
  unfold split. by rewrite split_go_join.
Qed.

Lemma clean_phrase_normalized (span : list Token) :
  clean_phrase lower span = Design.normalized_phrase lower span.
Proof.
  unfold clean_phrase, Design.normalized_phrase. do 2 f_equal.
  apply list_filter_iff. intros t. by rewrite andb_comm.
Qed.

Lemma phrase_step_counts (noun_phrases : Counter) (span : list Token) :
  phrase_step lower noun_phrases span =
    if bool_decide (2 <= len (split (Design.normalized_phrase lower span)))
    then counter_incr noun_phrases (Design.normalized_phrase lower span)
    else noun_phrases.
Proof.
  unfold phrase_step. rewrite clean_phrase_normalized.
  generalize (Design.normalized_phrase lower span). intros phrase.
  assert (E : bool_decide (phrase <> []) && bool_decide (len (split phrase) > 1)
              = bool_decide (2 <= len (split phrase))).
  { destruct phrase as [| c phrase].
    - repeat case_bool_decide; try done;
        unfold split, len in *; simpl in *; lia.
    - repeat case_bool_decide; try done; lia. }
  by rewrite E.
Qed.

Lemma phrase_spans_to_map (spans : list (list Token)) (noun_phrases : Counter) :
  to_map (foldl (phrase_step lower) noun_phrases spans) =
    foldl add_key (to_map noun_phrases)
      (filter (fun phrase => 2 <= len (split phrase))
         (Design.normalized_phrase lower <$> spans)).
Proof.
  revert noun_phrases. induction spans as [| span spans IH]; intros np; [done |].
  change (foldl ?f np (span :: spans)) with (foldl f (f np span) spans).
  rewrite IH, phrase_step_counts, fmap_cons.
  case_bool_decide.
  - rewrite filter_cons_True by done. by rewrite to_map_incr.
  - by rewrite filter_cons_False.
Qed.

Lemma phrase_docs_to_map (self : PhraseAnalyzer) (docs : list Doc) :
  to_map (noun_phrase_counter lower self docs) =
    foldl add_key ∅ (Design.counted_phrases lower docs).
Proof.
  unfold noun_phrase_counter, Design.counted_phrases.
  change (∅ : gmap str Z) with (to_map []).
  generalize ([] : Counter).
  induction docs as [| d docs IH]; intros np; [done |].
  change (foldl ?f np (d :: docs)) with (foldl f (f np d) docs).
  rewrite IH, phrase_spans_to_map, bind_cons, fmap_app, filter_app, foldl_app.
  done.
Qed.

Lemma split_normalized_retained (span : list Token) :
  one_word_lemmas lower span ->
  len (split (Design.normalized_phrase lower span)) = len (retained span).
Proof.
  intros Hw. unfold Design.normalized_phrase.
  rewrite split_join_words by (by apply Forall_fmap).
  unfold len. by rewrite length_fmap.
Qed.

Lemma occ_counted_phrases (spans : list (list Token)) (k : str) :
  Forall (one_word_lemmas lower) spans ->
  occ k (filter (fun phrase => 2 <= len (split phrase))
           (Design.normalized_phrase lower <$> spans)) =
    len (filter (fun span => 2 <= len (retained span)
                             /\ Design.normalized_phrase lower span = k) spans).
Proof.
  induction 1 as [| span spans Hw Hws IH]; [done |].
  rewrite fmap_cons.
  pose proof (split_normalized_retained span Hw) as E.
  destruct (decide (2 <= len (retained span))) as [H2 | H2].
  - rewrite filter_cons_True by (by rewrite E).
    rewrite occ_cons, IH.
    destruct (decide (k = Design.normalized_phrase lower span)) as [-> | Hk].
    + rewrite filter_cons_True by done. unfold len. simpl. lia.
    + rewrite filter_cons_False by (intros [_ ?]; congruence). lia.
  - rewrite filter_cons_False by (by rewrite E).
    by rewrite filter_cons_False by (by intros [? _]).
Qed.

(** C9. The phrase of a noun-phrase span is the space-joined lowercased
    lemmas, in span order, of exactly its tokens that are alphabetic and
    not stop words.  The span adds 1 to the count of that phrase when the
    phrase has 2 or more whitespace-separated components and changes
    nothing otherwise, so the count of a phrase in the table is the number
    of spans, over all chunks, that have this phrase and 2 or more
    components.  When the lowercased lemma of every retained token is one
    word (not empty, no whitespace in it), the components are the retained
    tokens: the span is counted when it retains 2 or more tokens, and the
    count of a phrase is the number of spans with this phrase that retain
    2 or more tokens. *)
Theorem phrase_counted_iff_two_components (self : PhraseAnalyzer)
    (noun_phrases : Counter) (span : list Token) (docs : list Doc) (k : str) :
  clean_phrase lower span = Design.normalized_phrase lower span
  /\ Design.normalized_phrase lower span =
       join (lit " ") ((fun t => lower (lemma_ t)) <$> retained span)
  /\ phrase_step lower noun_phrases span =
       (if bool_decide (2 <= len (split (Design.normalized_phrase lower span)))
        then counter_incr noun_phrases (Design.normalized_phrase lower span)
        else noun_phrases)
  /\ counter_get (phrase_step lower noun_phrases span) k =
       counter_get noun_phrases k
       + (if decide (2 <= len (split (Design.normalized_phrase lower span))
                     /\ k = Design.normalized_phrase lower span)
          then 1 else 0)
  /\ counter_get (counter (get_noun_phrases lower self docs)) k =
       occ k (Design.counted_phrases lower docs)
  /\ (Forall (fun t => Design.one_word (lower (lemma_ t)))
        (filter (fun t : Token => is_alpha t && negb (is_stop t)) span) ->
      len (split (Design.normalized_phrase lower span)) =
        len (filter (fun t : Token => is_alpha t && negb (is_stop t)) span))
  /\ (one_word_lemmas lower span ->
      phrase_step lower noun_phrases span =
        (if bool_decide (2 <= len (retained span))
         then counter_incr noun_phrases (Design.normalized_phrase lower span)
         else noun_phrases))
  /\ (Forall (one_word_lemmas lower) (docs ≫= noun_chunks) ->
      counter_get (counter (get_noun_phrases lower self docs)) k =
        len (filter (fun span => 2 <= len (retained span)
                                 /\ Design.normalized_phrase lower span = k)
                    (docs ≫= noun_chunks))).
Proof.
  assert (Hget : counter_get (counter (get_noun_phrases lower self docs)) k =
                 occ k (Design.counted_phrases lower docs)).
  { unfold get_noun_phrases. cbn [counter FrequencyDist_init].
    rewrite counter_get_to_map, phrase_docs_to_map, lookup_add_keys, lookup_empty.
    case_decide as E; [done |]. by rewrite occ_notin. }
  split_and!.
  - apply clean_phrase_normalized.
  - done.
  - apply phrase_step_counts.
  - rewrite phrase_step_counts. case_bool_decide as H2.
    + rewrite counter_get_incr.
      destruct (decide (k = Design.normalized_phrase lower span)) as [E | E].
      * by rewrite decide_True.
      * by rewrite decide_False by (by intros [_ ?]).
    + rewrite decide_False by (by intros [? _]). lia.
  - exact Hget.
  - apply split_normalized_retained.
  - intros Hw. rewrite phrase_step_counts.
    by rewrite (split_normalized_retained span Hw).
  - intros Hw. rewrite Hget. unfold Design.counted_phrases.
    by apply occ_counted_phrases.
Qed.

End Phrases.

(** ** The claims on concrete inputs *)

Section Examples.

Import Terminology.

Lemma few_NL_no_boundary (text : list N) :
  (length (filter (10%N =.) text) < 2)%nat -> ~ Design.has_boundary text.
Proof.
  intros Hlt (a & m & b & -> & _).
  rewrite !filter_app, !length_app in Hlt.
  change (filter (10%N =.) [NL]) with [NL] in Hlt. simpl in Hlt. lia.
Qed.

(** The examples of the design for the classifier. *)
Example formality_examples :
  TM.check_formality_type lower_latin1 (lit "Vous arrivez")
    (const_nlp
       [word "Vous" "vous" "PRON";
        {| text := lit "arrivez"; lemma_ := lit "arriver"; pos_ := lit "VERB";
           morph := [(lit "Person", [lit "2"]); (lit "Number", [lit "Plur"])];
           is_stop := false; is_alpha := true |}] []) = lit "Formal"
  /\ TM.check_formality_type lower_latin1 (lit "Tu es")
       (const_nlp
          [word "Tu" "tu" "PRON";
           {| text := lit "es"; lemma_ := lit "etre"; pos_ := lit "AUX";
              morph := [(lit "Person", [lit "2"]); (lit "Number", [lit "Sing"])];
              is_stop := true; is_alpha := true |}] []) = lit "Informal"
  /\ TM.check_formality_type lower_latin1 (lit "Ceci ton exemple et votre document")
       (const_nlp
          [word "Ceci" "ceci" "PRON"; word "ton" "ton" "DET";
           word "exemple" "exemple" "NOUN"; word "et" "et" "CCONJ";
           word "votre" "votre" "DET"; word "document" "document" "NOUN"] [])
     = lit "Not Applicable"
  /\ TM.check_formality_type lower_latin1 (lit "Le " ++ [86%N; 212%N] ++ lit "TRE")
       (const_nlp
          [word "Le" "le" "DET";
           {| text := [86%N; 212%N] ++ lit "TRE"; lemma_ := lit "votre";
              pos_ := lit "PRON"; morph := []; is_stop := true;
              is_alpha := true |}] []) = lit "Formal".
Proof. split_and!; by vm_compute. Qed.

(** C2 on a text of two paragraphs. *)
Lemma chunk_paragraphs_within_limit_witness :
  0 <= chunk_size (echo_preprocessor 5)
  /\ exists groups : list (list str),
       process_text (echo_preprocessor 5) (lit "abc" ++ [NL; NL] ++ lit "de") =
         (fun g => nlp (echo_preprocessor 5) (join [NL; NL] g)) <$> groups
       /\ concat groups = split_paragraphs (lit "abc" ++ [NL; NL] ++ lit "de")
       /\ Forall (fun g =>
            (total_len g <= chunk_size (echo_preprocessor 5)
             \/ exists p, g = [p] /\ chunk_size (echo_preprocessor 5) < len p)
            /\ len (join [NL; NL] g) = total_len g + 2 * Z.max 0 (len g - 1))
          groups.
Proof.
  split; [simpl; lia |].
  apply (chunk_paragraphs_within_limit (echo_preprocessor 5)
           (lit "abc" ++ [NL; NL] ++ lit "de")).
  simpl. lia.
Defined.

(** C2 fails as stated: with a limit of 5 characters the paragraphs "abc"
    and "de" go into one chunk, which has 7 characters and is not a single
    paragraph. *)
Lemma chunk_exceeds_limit :
  split_paragraphs (lit "abc" ++ [NL; NL] ++ lit "de") = [lit "abc"; lit "de"]
  /\ process_text (echo_preprocessor 5) (lit "abc" ++ [NL; NL] ++ lit "de") =
       [echo_nlp (lit "abc" ++ [NL; NL] ++ lit "de")]
  /\ ~ Design.chunk_within_limit 5
         (split_paragraphs (lit "abc" ++ [NL; NL] ++ lit "de"))
         (lit "abc" ++ [NL; NL] ++ lit "de").
Proof.
  split_and!; [by vm_compute | by vm_compute |].
  intros [H | [H _]].
  - vm_compute in H. by apply H.
  - revert H. apply (bool_decide_unpack _). by vm_compute.
Qed.

(** C3 on the text "abcdef" with a limit of 3 characters, which gives two
    chunks, an empty one and the text; on a text of two lines that fits
    the limit of 5 characters; and on a blank text with a limit of 0. *)
Lemma no_boundary_text_chunks_witness :
  ~ Design.has_boundary (lit "abcdef")
  /\ strip (lit "abcdef") <> []
  /\ process_text (echo_preprocessor 3) (lit "abcdef") =
       [echo_nlp []; echo_nlp (lit "abcdef")]
  /\ ~ Design.has_boundary (lit "ab" ++ [NL] ++ lit "c ")
  /\ strip (lit "ab" ++ [NL] ++ lit "c ") <> []
  /\ process_text (echo_preprocessor 5) (lit "ab" ++ [NL] ++ lit "c ") =
       [echo_nlp (lit "ab" ++ [NL] ++ lit "c")]
  /\ Forall (fun c => isspace c = true) (lit " " ++ [NL; NL] ++ lit "  ")
  /\ process_text (echo_preprocessor 0) (lit " " ++ [NL; NL] ++ lit "  ") = [].
Proof.
  assert (H1 : ~ Design.has_boundary (lit "abcdef"))
    by (apply few_NL_no_boundary; vm_compute; lia).
  assert (H2 : strip (lit "abcdef") <> []) by (vm_compute; discriminate).
  assert (H3 : ~ Design.has_boundary (lit "ab" ++ [NL] ++ lit "c "))
    by (apply few_NL_no_boundary; vm_compute; lia).
  assert (H4 : strip (lit "ab" ++ [NL] ++ lit "c ") <> [])
    by (vm_compute; discriminate).
  assert (H5 : Forall (fun c => isspace c = true) (lit " " ++ [NL; NL] ++ lit "  "))
    by (repeat constructor).
  split_and!; [exact H1 | exact H2 | | exact H3 | exact H4 | | exact H5 |].
  - exact (proj1 (no_boundary_text_chunks (echo_preprocessor 3)
                    (lit "abcdef") []) H1 H2).
  - exact (proj1 (no_boundary_text_chunks (echo_preprocessor 5)
                    (lit "ab" ++ [NL] ++ lit "c ") []) H3 H4).
  - exact (proj2 (no_boundary_text_chunks (echo_preprocessor 0) []
                    (lit " " ++ [NL; NL] ++ lit "  ")) H5).
Defined.

(** C5 on three chunks split into the third with the first, and the
    second. *)
Lemma aggregation_merges_witness :
  [noun_doc "tree"; noun_doc "lake"; noun_doc "tree"]
    ≡ₚ [noun_doc "tree"; noun_doc "tree"] ++ [noun_doc "lake"]
  /\ to_map (counter (pick Design.Nouns
       (get_pos_frequencies lower_latin1
          {| preprocessor := echo_preprocessor 100 |}
          (ChunkList [noun_doc "tree"; noun_doc "lake"; noun_doc "tree"])))) =
     Design.merge_counts
       (to_map (counter (pick Design.Nouns
          (get_pos_frequencies lower_latin1
             {| preprocessor := echo_preprocessor 100 |}
             (ChunkList [noun_doc "tree"; noun_doc "tree"])))))
       (to_map (counter (pick Design.Nouns
          (get_pos_frequencies lower_latin1
             {| preprocessor := echo_preprocessor 100 |}
             (ChunkList [noun_doc "lake"]))))).
Proof.
  assert (H : [noun_doc "tree"; noun_doc "lake"; noun_doc "tree"]
                ≡ₚ [noun_doc "tree"; noun_doc "tree"] ++ [noun_doc "lake"])
    by (simpl; apply Permutation_skip, Permutation_swap).
  split; [exact H |].
  apply (aggregation_merges lower_latin1
           {| preprocessor := echo_preprocessor 100 |} _ _ _ Design.Nouns H).
Defined.

(** C6 fails as stated: on the empty Count Table [get_stats] raises
    [ValueError], not an EmptyDistribution report. *)
Lemma get_stats_empty_not_EmptyDistribution :
  get_stats (FrequencyDist_init []) = Raises ValueError
  /\ get_stats (FrequencyDist_init []) <> Raises EmptyDistribution.
Proof. split; [reflexivity | discriminate]. Qed.

(** C7 on a table of two entries. *)
Lemma invalid_bounds_return_normally_witness :
  2 < 5 /\ -3 < 0 /\ count_table [(lit "cat", 2); (lit "dog", 1)]
  /\ get_range (FrequencyDist_init [(lit "cat", 2); (lit "dog", 1)])
               (Some 5) (Some 2) = Returns []
  /\ least_common (FrequencyDist_init [(lit "cat", 2); (lit "dog", 1)])
                  (Some 1) (-3) =
       Returns (slice_to
                  (reverse (_sorted_items
                     (FrequencyDist_init [(lit "cat", 2); (lit "dog", 1)])))
                  (Some 1)).
Proof.
  assert (H : count_table [(lit "cat", 2); (lit "dog", 1)]).
  { split; [decide_by_computation |]. repeat constructor; simpl; lia. }
  split_and!; [lia | lia | exact H | |];
    apply (invalid_bounds_return_normally
             [(lit "cat", 2); (lit "dog", 1)] 5 2 (-3) (Some 1));
    (lia || exact H).
Defined.

(** C7 fails as stated: the calls return normally, [get_range] with the
    empty sequence and [least_common] with the least common entry. *)
Lemma invalid_bounds_not_reported :
  get_range (FrequencyDist_init [(lit "cat", 2); (lit "dog", 1)])
            (Some 5) (Some 2) = Returns []
  /\ get_range (FrequencyDist_init [(lit "cat", 2); (lit "dog", 1)])
               (Some 5) (Some 2) <> Raises InvalidQueryBounds
  /\ least_common (FrequencyDist_init [(lit "cat", 2); (lit "dog", 1)])
                  (Some 1) (-3) = Returns [(lit "dog", 1)]
  /\ least_common (FrequencyDist_init [(lit "cat", 2); (lit "dog", 1)])
                  (Some 1) (-3) <> Raises InvalidQueryBounds.
Proof. split_and!; try discriminate; by vm_compute. Qed.

(** C8 on a table of three entries, two of them tied. *)
Lemma most_common_reversed_is_least_common_witness :
  count_table [(lit "b", 1); (lit "a", 1); (lit "c", 3)]
  /\ most_common (FrequencyDist_init [(lit "b", 1); (lit "a", 1); (lit "c", 3)])
                 (Some 3) =
       Returns [(lit "c", 3); (lit "a", 1); (lit "b", 1)]
  /\ least_common (FrequencyDist_init [(lit "b", 1); (lit "a", 1); (lit "c", 3)])
                  (Some 3) 1 =
       Returns [(lit "b", 1); (lit "a", 1); (lit "c", 3)].
Proof.
  assert (H : count_table [(lit "b", 1); (lit "a", 1); (lit "c", 3)]).
  { split; [decide_by_computation |]. repeat constructor; simpl; lia. }
  destruct (most_common_reversed_is_least_common
              [(lit "b", 1); (lit "a", 1); (lit "c", 3)] H) as (H1 & H2 & _).
  split_and!; [exact H | exact H1 | exact H2].
Defined.

(** C9 on the span "the lovely garden of 3 Stone", which retains three
    tokens, in two chunks that have it three times and a span of one
    retained token once. *)
Lemma phrase_counted_iff_two_components_witness :
  Forall (fun t => Design.one_word (lower_latin1 (lemma_ t)))
    (filter (fun t : Token => is_alpha t && negb (is_stop t))
       [stop_token "the"; word "lovely" "lovely" "ADJ";
        word "garden" "garden" "NOUN"; stop_token "of"; number_token "3";
        word "Stone" "Stone" "NOUN"])
  /\ len (split (Design.normalized_phrase lower_latin1
                   [stop_token "the"; word "lovely" "lovely" "ADJ";
                    word "garden" "garden" "NOUN"; stop_token "of";
                    number_token "3"; word "Stone" "Stone" "NOUN"])) = 3
  /\ one_word_lemmas lower_latin1
       [stop_token "the"; word "lovely" "lovely" "ADJ";
        word "garden" "garden" "NOUN"; stop_token "of"; number_token "3";
        word "Stone" "Stone" "NOUN"]
  /\ phrase_step lower_latin1 [(lit "stone garden", 4)]
       [stop_token "the"; word "lovely" "lovely" "ADJ";
        word "garden" "garden" "NOUN"; stop_token "of"; number_token "3";
        word "Stone" "Stone" "NOUN"] =
     [(lit "stone garden", 4); (lit "lovely garden stone", 1)]
  /\ Forall (one_word_lemmas lower_latin1)
       ([ {| tokens := [];
             noun_chunks :=
               [[stop_token "the"; word "lovely" "lovely" "ADJ";
                 word "garden" "garden" "NOUN"; stop_token "of";
                 number_token "3"; word "Stone" "Stone" "NOUN"];
                [stop_token "the"; word "garden" "garden" "NOUN"];
                [word "Lovely" "lovely" "ADJ"; word "gardens" "garden" "NOUN";
                 stop_token "of"; word "stone" "stone" "NOUN"]] |};
          {| tokens := [];
             noun_chunks :=
               [[word "lovely" "lovely" "ADJ"; number_token "2";
                 word "garden" "garden" "NOUN"; word "Stone" "Stone" "NOUN"]] |} ]
        ≫= noun_chunks)
  /\ counter_get
       (counter
          (get_noun_phrases lower_latin1
             {| preprocessor' := echo_preprocessor 100 |}
             [ {| tokens := [];
                  noun_chunks :=
                    [[stop_token "the"; word "lovely" "lovely" "ADJ";
                      word "garden" "garden" "NOUN"; stop_token "of";
                      number_token "3"; word "Stone" "Stone" "NOUN"];
                     [stop_token "the"; word "garden" "garden" "NOUN"];
                     [word "Lovely" "lovely" "ADJ"; word "gardens" "garden" "NOUN";
                      stop_token "of"; word "stone" "stone" "NOUN"]] |};
               {| tokens := [];
                  noun_chunks :=
                    [[word "lovely" "lovely" "ADJ"; number_token "2";
                      word "garden" "garden" "NOUN";
                      word "Stone" "Stone" "NOUN"]] |} ]))
       (lit "lovely garden stone") = 3
  /\ counter_get
       (counter
          (get_noun_phrases lower_latin1
             {| preprocessor' := echo_preprocessor 100 |}
             [ {| tokens := [];
                  noun_chunks :=
                    [[stop_token "the"; word "lovely" "lovely" "ADJ";
                      word "garden" "garden" "NOUN"; stop_token "of";
                      number_token "3"; word "Stone" "Stone" "NOUN"];
                     [stop_token "the"; word "garden" "garden" "NOUN"];
                     [word "Lovely" "lovely" "ADJ"; word "gardens" "garden" "NOUN";
                      stop_token "of"; word "stone" "stone" "NOUN"]] |};
               {| tokens := [];
                  noun_chunks :=
                    [[word "lovely" "lovely" "ADJ"; number_token "2";
                      word "garden" "garden" "NOUN";
                      word "Stone" "Stone" "NOUN"]] |} ]))
       (lit "garden") = 0.
Proof.
  set (span := [stop_token "the"; word "lovely" "lovely" "ADJ";
                word "garden" "garden" "NOUN"; stop_token "of";
                number_token "3"; word "Stone" "Stone" "NOUN"]).
  set (docs := [ {| tokens := [];
                    noun_chunks :=
                      [span; [stop_token "the"; word "garden" "garden" "NOUN"];
                       [word "Lovely" "lovely" "ADJ";
                        word "gardens" "garden" "NOUN"; stop_token "of";
                        word "stone" "stone" "NOUN"]] |};
                 {| tokens := [];
                    noun_chunks :=
                      [[word "lovely" "lovely" "ADJ"; number_token "2";
                        word "garden" "garden" "NOUN";
                        word "Stone" "Stone" "NOUN"]] |} ]).
  assert (H : one_word_lemmas lower_latin1 span)
    by (repeat constructor; by vm_compute).
  assert (Hs : Forall (one_word_lemmas lower_latin1) (docs ≫= noun_chunks))
    by (repeat constructor; by vm_compute).
  split_and!; [exact H | | exact H | | exact Hs | |].
  - destruct (phrase_counted_iff_two_components lower_latin1
                {| preprocessor' := echo_preprocessor 100 |} [] span docs [])
      as (_ & _ & _ & _ & _ & H6 & _).
    exact (H6 H).
  - destruct (phrase_counted_iff_two_components lower_latin1
                {| preprocessor' := echo_preprocessor 100 |}
                [(lit "stone garden", 4)] span docs [])
      as (_ & _ & _ & _ & _ & _ & H7 & _).
    exact (H7 H).
  - destruct (phrase_counted_iff_two_components lower_latin1
                {| preprocessor' := echo_preprocessor 100 |} [] span docs
                (lit "lovely garden stone"))
      as (_ & _ & _ & _ & _ & _ & _ & H8).
    rewrite (H8 Hs). by vm_compute.
  - destruct (phrase_counted_iff_two_components lower_latin1
                {| preprocessor' := echo_preprocessor 100 |} [] span docs
                (lit "garden"))
      as (_ & _ & _ & _ & _ & _ & _ & H8).
    rewrite (H8 Hs). by vm_compute.
Defined.

(** C9 fails as stated: a span that retains the single token "York" with
    the lemma "New York" is counted, under "new york"; a span that retains
    two tokens, one of them with an empty lemma, is not counted. *)
Lemma phrase_components_are_not_retained_tokens :
  len (retained [stop_token "in"; word "York" "New York" "PROPN"]) = 1
  /\ phrase_step lower_latin1 []
       [stop_token "in"; word "York" "New York" "PROPN"] =
     [(lit "new york", 1)]
  /\ len (retained [word "data" "data" "NOUN"; word "set" "" "NOUN"]) = 2
  /\ phrase_step lower_latin1 []
       [word "data" "data" "NOUN"; word "set" "" "NOUN"] = []
  /\ counter
       (get_noun_phrases lower_latin1
          {| preprocessor' := echo_preprocessor 100 |}
          [ {| tokens := [];
               noun_chunks :=
                 [[stop_token "in"; word "York" "New York" "PROPN"];
                  [word "data" "data" "NOUN"; word "set" "" "NOUN"]] |} ]) =
     [(lit "new york", 1)].
Proof. split_and!; by vm_compute. Qed.

(** C10 on a table in which "ab" and "cd" tie on length and count, where
    "ab", counted first, comes first; and on two tables without ties that
    have the same entries in different orders. *)
Lemma get_longest_tie_free_witness :
  [(lit "xyz", 2); (lit "ab", 1); (lit "cd", 1)]
    ≡ₚ [(lit "ab", 1); (lit "xyz", 2); (lit "cd", 1)]
  /\ StronglySorted Design.longest_before
       [(lit "xyz", 2); (lit "ab", 1); (lit "cd", 1)]
  /\ (forall x : str * Z,
        filter (fun y : str * Z => len y.1 = len x.1 /\ y.2 = x.2)
          [(lit "xyz", 2); (lit "ab", 1); (lit "cd", 1)] =
        filter (fun y : str * Z => len y.1 = len x.1 /\ y.2 = x.2)
          [(lit "ab", 1); (lit "xyz", 2); (lit "cd", 1)])
  /\ get_longest
       (FrequencyDist_init [(lit "ab", 1); (lit "xyz", 2); (lit "cd", 1)]) 3 =
     Returns [(lit "xyz", 2); (lit "ab", 1); (lit "cd", 1)]
  /\ NoDup [(lit "ab", 1); (lit "cde", 1)].*1
  /\ NoDup [(lit "cde", 1); (lit "ab", 1)].*1
  /\ to_map [(lit "ab", 1); (lit "cde", 1)] = to_map [(lit "cde", 1); (lit "ab", 1)]
  /\ tie_free [(lit "ab", 1); (lit "cde", 1)]
  /\ get_longest (FrequencyDist_init [(lit "ab", 1); (lit "cde", 1)]) 1 =
       get_longest (FrequencyDist_init [(lit "cde", 1); (lit "ab", 1)]) 1.
Proof.
  assert (G1 : [(lit "xyz", 2); (lit "ab", 1); (lit "cd", 1)]
                 ≡ₚ [(lit "ab", 1); (lit "xyz", 2); (lit "cd", 1)])
    by apply Permutation_swap.
  assert (G2 : StronglySorted Design.longest_before
                 [(lit "xyz", 2); (lit "ab", 1); (lit "cd", 1)]).
  { repeat constructor; vm_compute; intuition congruence. }
  assert (G3 : forall x : str * Z,
            filter (fun y : str * Z => len y.1 = len x.1 /\ y.2 = x.2)
              [(lit "xyz", 2); (lit "ab", 1); (lit "cd", 1)] =
            filter (fun y : str * Z => len y.1 = len x.1 /\ y.2 = x.2)
              [(lit "ab", 1); (lit "xyz", 2); (lit "cd", 1)]).
  { intros x.
    destruct (decide (len (lit "xyz", 2).1 = len x.1 /\ (lit "xyz", 2).2 = x.2))
      as [Hx | Hx];
    destruct (decide (len (lit "ab", 1).1 = len x.1 /\ (lit "ab", 1).2 = x.2))
      as [Ha | Ha];
    try (exfalso; destruct Hx as [_ Hx], Ha as [_ Ha]; simpl in Hx, Ha; lia);
    repeat first [rewrite (filter_cons_True _ (lit "xyz", 2)) by done
                 | rewrite (filter_cons_True _ (lit "ab", 1)) by done
                 | rewrite (filter_cons_False _ (lit "xyz", 2)) by done
                 | rewrite (filter_cons_False _ (lit "ab", 1)) by done];
    done. }
  assert (H1 : NoDup [(lit "ab", 1); (lit "cde", 1)].*1)
    by decide_by_computation.
  assert (H2 : NoDup [(lit "cde", 1); (lit "ab", 1)].*1)
    by decide_by_computation.
  assert (H3 : to_map [(lit "ab", 1); (lit "cde", 1)] =
               to_map [(lit "cde", 1); (lit "ab", 1)])
    by (apply (insert_insert_ne (M := gmap str)); by vm_compute).
  assert (H4 : tie_free [(lit "ab", 1); (lit "cde", 1)]).
  { intros x y Hx Hy. revert Hx Hy.
    rewrite !elem_of_cons, !elem_of_nil.
    intros [-> | [-> | []]] [-> | [-> | []]]; vm_compute; congruence. }
  split_and!; [exact G1 | exact G2 | exact G3 | | exact H1 | exact H2 | exact H3
              | exact H4 |].
  - exact (proj1 (proj2 (get_longest_tie_free
             [(lit "ab", 1); (lit "xyz", 2); (lit "cd", 1)] [] 3)) _ G1 G2 G3).
  - exact (proj2 (proj2 (get_longest_tie_free
             [(lit "ab", 1); (lit "cde", 1)] [(lit "cde", 1); (lit "ab", 1)] 1))
             H1 H2 H3 H4).
Defined.

(** C10 fails as stated: the chunks "tree" and "lake" aggregated in the
    two orders give equal Count Tables of nouns, but [get_longest] lists
    the two entries, which tie on length and count, in the order they were
    first counted. *)
Lemma get_longest_depends_on_insertion_order :
  to_map (counter (pick Design.Nouns
     (get_pos_frequencies lower_latin1 {| preprocessor := echo_preprocessor 100 |}
        (ChunkList [noun_doc "tree"; noun_doc "lake"])))) =
  to_map (counter (pick Design.Nouns
     (get_pos_frequencies lower_latin1 {| preprocessor := echo_preprocessor 100 |}
        (ChunkList [noun_doc "lake"; noun_doc "tree"]))))
  /\ get_longest (pick Design.Nouns
       (get_pos_frequencies lower_latin1 {| preprocessor := echo_preprocessor 100 |}
          (ChunkList [noun_doc "tree"; noun_doc "lake"]))) 10 =
     Returns [(lit "tree", 1); (lit "lake", 1)]
  /\ get_longest (pick Design.Nouns
       (get_pos_frequencies lower_latin1 {| preprocessor := echo_preprocessor 100 |}
          (ChunkList [noun_doc "lake"; noun_doc "tree"]))) 10 =
     Returns [(lit "lake", 1); (lit "tree", 1)]
  /\ get_longest (pick Design.Nouns
       (get_pos_frequencies lower_latin1 {| preprocessor := echo_preprocessor 100 |}
          (ChunkList [noun_doc "tree"; noun_doc "lake"]))) 10 <>
     get_longest (pick Design.Nouns
       (get_pos_frequencies lower_latin1 {| preprocessor := echo_preprocessor 100 |}
          (ChunkList [noun_doc "lake"; noun_doc "tree"]))) 10.
Proof.
  split_and!.
  - apply aggregation_order, Permutation_swap.
  - by vm_compute.
  - by vm_compute.
  - vm_compute. discriminate.
Qed.

End Examples.

(** ** More on frequency distributions *)

Section Queries.

Import Terminology.

Lemma StronglySorted_sublist {A} (R : relation A) (l1 l2 : list A) :
  l1 `sublist_of` l2 -> StronglySorted R l2 -> StronglySorted R l1.
Proof.
  induction 1 as [| x l1 l2 Hs IH | x l1 l2 Hs IH]; intros Hl2.
  - constructor.
  - apply StronglySorted_cons in Hl2 as [Hx Hl2].
    constructor; [by apply IH |].
    eapply Forall_forall. intros y Hy. rewrite Forall_forall in Hx.
    apply Hx. by apply (sublist_subseteq _ _ Hs).
  - apply StronglySorted_cons in Hl2 as [_ Hl2]. by apply IH.
Qed.

Lemma StronglySorted_reverse {A} (R : relation A) (l : list A) :
  StronglySorted R l -> StronglySorted (flip R) (reverse l).
Proof.
  induction 1 as [| x l Hl IH Hx]; [constructor |].
  rewrite reverse_cons. apply StronglySorted_app. split_and!.
  - intros y z Hy Hz. apply list_elem_of_singleton in Hz as ->.
    rewrite Forall_forall in Hx. apply Hx. by apply elem_of_reverse.
  - exact IH.
  - repeat constructor.
Qed.

Lemma slice_to_prefix {A} (l : list A) (n : Z) :
  exists rest, l = slice_to l (Some n) ++ rest
               /\ len (slice_to l (Some n)) = slice_len (len l) n.
Proof.
  unfold slice_to, slice_len, len.
  destruct (Z.leb_spec 0 n).
  - exists (drop (Z.to_nat n) l). rewrite take_drop, length_take. split; [done | lia].
  - exists (drop (Z.to_nat (Z.of_nat (length l) + n)) l).
    rewrite take_drop, length_take. split; [done | lia].
Qed.

Lemma ranking_sorted (c : Counter) :
  StronglySorted (not_after rank_lt) (_sorted_items (FrequencyDist_init c)).
Proof. apply sorted_StronglySorted; [apply rank_lt_asym | apply not_after_rank_trans]. Qed.

Lemma not_after_rank_count (x y : str * Z) : not_after rank_lt x y -> y.2 <= x.2.
Proof. rewrite not_after_rank. lia. Qed.

(** X1. [most_common(n)] returns the first entries of the ranking: [n] of
    them (or all, if there are fewer) for [n >= 0], and all but the last
    [-n] for a negative [n]; no entry that is left out has a higher count
    than one that is returned. *)
Theorem most_common_top (c : Counter) (n : Z) :
  exists top rest,
    most_common (FrequencyDist_init c) (Some n) = Returns top
    /\ _sorted_items (FrequencyDist_init c) = top ++ rest
    /\ top ++ rest ≡ₚ c
    /\ len top = slice_len (len c) n
    /\ forall x y, x ∈ top -> y ∈ rest -> y.2 <= x.2.
Proof.
  destruct (slice_to_prefix (_sorted_items (FrequencyDist_init c)) n)
    as (rest & Hsplit & Hlen).
  exists (slice_to (_sorted_items (FrequencyDist_init c)) (Some n)), rest.
  pose proof (ranking_sorted c) as Hs.
  split_and!.
  - done.
  - exact Hsplit.
  - rewrite <- Hsplit. apply sorted_items_Permutation.
  - rewrite Hlen. unfold len. by rewrite (sorted_items_Permutation c).
  - intros x y Hx Hy. apply not_after_rank_count.
    rewrite Hsplit in Hs. by eapply StronglySorted_app_1_elem_of.
Qed.

Lemma not_after_rank_after (x y : str * Z) :
  flip (not_after rank_lt) x y -> ranks_after x y.
Proof.
  unfold flip, ranks_after. rewrite not_after_rank.
  intros [H | [H1 H2]]; [by left | right].
  split; [done |]. rewrite <- str_ltb_key_lt. congruence.
Qed.

(** X2. [least_common(n, min_freq)] returns entries of the table with a count
    of at least [min_freq], lowest count first (and among equal counts
    the later key first): all of them when [n] is [None], otherwise cut
    like [l[:n]]; no entry with a count of at least [min_freq] that is
    left out has a lower count than one that is returned. *)
Theorem least_common_lowest (c : Counter) (n : option Z) (min_freq : Z) :
  exists low rest,
    least_common (FrequencyDist_init c) n min_freq = Returns low
    /\ low ++ rest ≡ₚ filter (fun wc => min_freq <= wc.2) c
    /\ StronglySorted ranks_after (low ++ rest)
    /\ len low =
         match n with
         | None => len (filter (fun wc => min_freq <= wc.2) c)
         | Some n => slice_len (len (filter (fun wc => min_freq <= wc.2) c)) n
         end.
Proof.
  set (ranking := _sorted_items (FrequencyDist_init c)).
  set (filtered := filter (fun wc : str * Z => wc.2 >= min_freq) ranking).
  assert (Hperm : reverse filtered ≡ₚ filter (fun wc => min_freq <= wc.2) c).
  { rewrite reverse_Permutation. unfold filtered, ranking.
    rewrite (sorted_items_Permutation c).
    erewrite list_filter_iff; [done |]. intros x. simpl. lia. }
  assert (Hsorted : StronglySorted ranks_after (reverse filtered)).
  { eapply StronglySorted_mono; [apply not_after_rank_after |].
    apply StronglySorted_reverse.
    eapply StronglySorted_sublist; [apply sublist_filter | apply ranking_sorted]. }
  destruct n as [n |].
  - destruct (slice_to_prefix (reverse filtered) n) as (rest & Hsplit & Hlen).
    exists (slice_to (reverse filtered) (Some n)), rest.
    split_and!; [done | by rewrite <- Hsplit | by rewrite <- Hsplit |].
    rewrite Hlen. unfold len. by rewrite Hperm.
  - exists (reverse filtered), [].
    rewrite app_nil_r. split_and!; [done | done | done |].
    unfold len. by rewrite Hperm.
Qed.

(** X3. [get_range(start, end)] returns exactly the entries of the table whose
    count lies within the bounds, each as often as the table has it, in
    the order of the ranking. *)
Theorem get_range_exact (c : Counter) (start end_ : option Z) :
  exists l,
    get_range (FrequencyDist_init c) start end_ = Returns l
    /\ l ≡ₚ filter (fun wc => in_range start end_ wc.2) c
    /\ l `sublist_of` _sorted_items (FrequencyDist_init c)
    /\ forall x, x ∈ l <-> x ∈ c /\ in_range start end_ x.2.
Proof.
  set (l := filter (fun wc : str * Z => in_range start end_ wc.2)
                   (_sorted_items (FrequencyDist_init c))).
  assert (E : get_range (FrequencyDist_init c) start end_ = Returns l).
  { unfold get_range, l. f_equal. apply list_filter_iff. intros x.
    unfold in_range. destruct start, end_; simpl;
      rewrite ?andb_True, ?bool_decide_spec; intuition lia. }
  exists l. split_and!.
  - exact E.
  - unfold l. by rewrite (sorted_items_Permutation c).
  - apply sublist_filter.
  - intros x. unfold l. rewrite list_elem_of_filter.
    rewrite (sorted_items_Permutation c). tauto.
Qed.

End Queries.

Section Statistics.

Import Terminology.

Lemma foldl_max_spec (x : Z) (l : list Z) :
  foldl Z.max x l ∈ x :: l /\ Forall (fun y => y <= foldl Z.max x l) (x :: l).
Proof.
  revert x. induction l as [| y l IH]; intros x.
  - simpl. split; [apply list_elem_of_here | by repeat constructor].
  - change (foldl Z.max x (y :: l)) with (foldl Z.max (Z.max x y) l).
    destruct (IH (Z.max x y)) as [Hin Hall].
    apply Forall_cons in Hall as [Hxy Hall]. split.
    + apply elem_of_cons in Hin as [Hin | Hin].
      * rewrite Hin. destruct (Z.max_spec x y) as [[_ ->] | [_ ->]];
          [apply list_elem_of_further, list_elem_of_here | apply list_elem_of_here].
      * by do 2 apply list_elem_of_further.
    + repeat constructor; [lia | lia | done].
Qed.

Lemma foldl_min_spec (x : Z) (l : list Z) :
  foldl Z.min x l ∈ x :: l /\ Forall (fun y => foldl Z.min x l <= y) (x :: l).
Proof.
  revert x. induction l as [| y l IH]; intros x.
  - simpl. split; [apply list_elem_of_here | by repeat constructor].
  - change (foldl Z.min x (y :: l)) with (foldl Z.min (Z.min x y) l).
    destruct (IH (Z.min x y)) as [Hin Hall].
    apply Forall_cons in Hall as [Hxy Hall]. split.
    + apply elem_of_cons in Hin as [Hin | Hin].
      * rewrite Hin. destruct (Z.min_spec x y) as [[_ ->] | [_ ->]];
          [apply list_elem_of_here | apply list_elem_of_further, list_elem_of_here].
      * by do 2 apply list_elem_of_further.
    + repeat constructor; [lia | lia | done].
Qed.

Lemma foldl_add (a : Z) (l : list Z) : foldl Z.add a l = a + foldl Z.add 0 l.
Proof.
  revert a. induction l as [| y l IH]; intros a; [simpl; lia |].
  change (foldl Z.add a (y :: l)) with (foldl Z.add (a + y) l).
  change (foldl Z.add 0 (y :: l)) with (foldl Z.add (0 + y) l).
  rewrite (IH (a + y)), (IH (0 + y)). lia.
Qed.

Lemma py_sum_cons (x : Z) (l : list Z) : py_sum (x :: l) = x + py_sum l.
Proof.
  unfold py_sum. change (foldl Z.add 0 (x :: l)) with (foldl Z.add (0 + x) l).
  rewrite foldl_add. lia.
Qed.

Lemma py_sum_at_least (l : list Z) :
  Forall (fun v => 1 <= v) l -> len l <= py_sum l.
Proof.
  induction 1 as [| x l Hx Hl IH]; [done |].
  rewrite py_sum_cons. unfold len in *. simpl. lia.
Qed.

Lemma get_stats_returns (c : Counter) :
  c <> [] ->
  exists s, get_stats (FrequencyDist_init c) = Returns s
    /\ total_occurrences s = py_sum c.*2
    /\ unique_words s = len c
    /\ max_frequency s ∈ c.*2 /\ Forall (fun v => v <= max_frequency s) c.*2
    /\ min_frequency s ∈ c.*2 /\ Forall (fun v => min_frequency s <= v) c.*2.
Proof.
  destruct c as [| wc c]; [done |]. intros _.
  eexists. split; [reflexivity |]. cbn [total_occurrences unique_words
    max_frequency min_frequency].
  destruct (foldl_max_spec wc.2 c.*2) as [H1 H2].
  destruct (foldl_min_spec wc.2 c.*2) as [H3 H4].
  by rewrite fmap_cons.
Qed.

(** X4. On a table with entries [get_stats] returns, and its maximum and
    minimum are counts of the table that bound every count; the number of
    unique words is the number of entries. *)
Theorem get_stats_extremes (c : Counter) :
  c <> [] ->
  exists s, get_stats (FrequencyDist_init c) = Returns s
    /\ unique_words s = len c
    /\ (forall wc, wc ∈ c -> min_frequency s <= wc.2 <= max_frequency s)
    /\ (exists k, (k, max_frequency s) ∈ c)
    /\ (exists k, (k, min_frequency s) ∈ c).
Proof.
  intros Hne. destruct (get_stats_returns c Hne)
    as (s & Hs & _ & Hu & Hmax & Hle & Hmin & Hge).
  exists s. split_and!; [done | done | | |].
  - intros wc Hwc. rewrite Forall_forall in Hle, Hge.
    split; [apply Hge | apply Hle]; by apply list_elem_of_fmap_2.
  - apply list_elem_of_fmap in Hmax as ([k v] & -> & Hin). by exists k.
  - apply list_elem_of_fmap in Hmin as ([k v] & -> & Hin). by exists k.
Qed.

Lemma get_stats_extremes_witness :
  [(lit "cat", 2); (lit "dog", 5)] <> []
  /\ exists s, get_stats (FrequencyDist_init [(lit "cat", 2); (lit "dog", 5)])
               = Returns s
       /\ unique_words s = 2 /\ min_frequency s = 2 /\ max_frequency s = 5.
Proof.
  assert (H : [(lit "cat", 2); (lit "dog", 5)] <> []) by discriminate.
  split; [exact H |].
  destruct (get_stats_extremes [(lit "cat", 2); (lit "dog", 5)] H)
    as (s & Hs & Hu & _).
  exists s. split; [exact Hs |]. split; [exact Hu |].
  vm_compute in Hs. injection Hs as <-. split; reflexivity.
Defined.

(** X5. On a Count Table with entries, the statistics agree with the ranking:
    [most_common(1)] is an entry with the maximum frequency and
    [least_common(1)] an entry with the minimum frequency; the minimum is
    at least 1 and the total is at least the number of unique words. *)
Theorem get_stats_agrees_with_ranking (c : Counter) :
  count_table c -> c <> [] ->
  exists s k_max k_min,
    get_stats (FrequencyDist_init c) = Returns s
    /\ most_common (FrequencyDist_init c) (Some 1) =
         Returns [(k_max, max_frequency s)]
    /\ least_common (FrequencyDist_init c) (Some 1) 1 =
         Returns [(k_min, min_frequency s)]
    /\ 1 <= min_frequency s
    /\ unique_words s <= total_occurrences s.
Proof.
  intros [Hnd Hpos] Hne.
  destruct (get_stats_returns c Hne)
    as (s & Hs & Ht & Hu & Hmax & Hle & Hmin & Hge).
  pose proof (sorted_items_Permutation c) as Hp.
  pose proof (ranking_sorted c) as Hsorted.
  assert (Hpos' : Forall (fun v => 1 <= v) c.*2) by (by apply Forall_fmap).
  assert (Hcount : forall x, x ∈ _sorted_items (FrequencyDist_init c) ->
                             min_frequency s <= x.2 <= max_frequency s).
  { intros x Hx. rewrite Hp in Hx. rewrite Forall_forall in Hle, Hge.
    split; [apply Hge | apply Hle]; by apply list_elem_of_fmap_2. }
  assert (Hmax' : exists x, x ∈ _sorted_items (FrequencyDist_init c)
                            /\ x.2 = max_frequency s).
  { apply list_elem_of_fmap in Hmax as (x & -> & Hin). exists x. by rewrite Hp. }
  assert (Hmin' : exists x, x ∈ _sorted_items (FrequencyDist_init c)
                            /\ x.2 = min_frequency s).
  { apply list_elem_of_fmap in Hmin as (x & -> & Hin). exists x. by rewrite Hp. }
  rewrite least_common_all by done.
  unfold most_common.
  destruct (_sorted_items (FrequencyDist_init c)) as [| first ranking] eqn:E.
  { apply Permutation_nil_l in Hp. by subst. }
  destruct (reverse (first :: ranking)) as [| final rev_ranking] eqn:Er.
  { apply (f_equal length) in Er. rewrite length_reverse in Er. done. }
  exists s, first.1, final.1. split_and!.
  - exact Hs.
  - simpl. do 2 f_equal. destruct first as [k v]. simpl. f_equal.
    apply Z.le_antisymm; [apply (Hcount (k, v)), list_elem_of_here |].
    destruct Hmax' as (x & Hx & <-).
    apply elem_of_cons in Hx as [-> | Hx]; [done |].
    apply StronglySorted_cons in Hsorted as [Hfirst _].
    rewrite Forall_forall in Hfirst.
    by apply (not_after_rank_count (k, v) x), Hfirst.
  - simpl. do 2 f_equal. destruct final as [k v]. simpl. f_equal.
    assert (Hfinal : (k, v) ∈ first :: ranking).
    { apply elem_of_reverse. rewrite Er. apply list_elem_of_here. }
    apply Z.le_antisymm; [| apply (Hcount (k, v) Hfinal)].
    destruct Hmin' as (x & Hx & <-).
    apply elem_of_reverse in Hx. rewrite Er in Hx.
    apply elem_of_cons in Hx as [-> | Hx]; [done |].
    apply StronglySorted_reverse in Hsorted. rewrite Er in Hsorted.
    apply StronglySorted_cons in Hsorted as [Hfinal' _].
    rewrite Forall_forall in Hfinal'.
    by apply (not_after_rank_count x (k, v)), Hfinal'.
  - rewrite Forall_forall in Hpos'. by apply Hpos'.
  - rewrite Ht, Hu. unfold len. rewrite <- (length_fmap snd c).
    by apply py_sum_at_least.
Qed.

Lemma get_stats_agrees_with_ranking_witness :
  count_table [(lit "cat", 2); (lit "dog", 5); (lit "ant", 2)]
  /\ [(lit "cat", 2); (lit "dog", 5); (lit "ant", 2)] <> []
  /\ exists s k_max k_min,
       get_stats (FrequencyDist_init
                    [(lit "cat", 2); (lit "dog", 5); (lit "ant", 2)]) = Returns s
       /\ most_common (FrequencyDist_init
                    [(lit "cat", 2); (lit "dog", 5); (lit "ant", 2)]) (Some 1) =
            Returns [(k_max, max_frequency s)]
       /\ least_common (FrequencyDist_init
                    [(lit "cat", 2); (lit "dog", 5); (lit "ant", 2)]) (Some 1) 1 =
            Returns [(k_min, min_frequency s)]
       /\ 1 <= min_frequency s
       /\ unique_words s <= total_occurrences s.
Proof.
  assert (H1 : count_table [(lit "cat", 2); (lit "dog", 5); (lit "ant", 2)]).
  { split; [decide_by_computation |]. repeat constructor; simpl; lia. }
  assert (H2 : [(lit "cat", 2); (lit "dog", 5); (lit "ant", 2)] <> [])
    by discriminate.
  split; [exact H1 |]. split; [exact H2 |].
  exact (get_stats_agrees_with_ranking _ H1 H2).
Defined.

(** X6. [get_longest(n)] returns the first entries of the table sorted by key
    length descending, then count descending: cut like [l[:n]], and no
    entry that is left out has a longer key than one that is returned. *)
Theorem get_longest_top (c : Counter) (n : Z) :
  exists top rest,
    get_longest (FrequencyDist_init c) n = Returns top
    /\ top ++ rest ≡ₚ c
    /\ StronglySorted Design.longest_before (top ++ rest)
    /\ len top = slice_len (len c) n
    /\ forall x y, x ∈ top -> y ∈ rest -> len y.1 <= len x.1.
Proof.
  pose proof (sorted_Permutation (fun a b => longest_lt b a) c) as Hp.
  pose proof (sorted_reverse_longest c) as Hs.
  destruct (slice_to_prefix (sorted_reverse longest_lt c) n)
    as (rest & Hsplit & Hlen).
  exists (slice_to (sorted_reverse longest_lt c) (Some n)), rest.
  split_and!.
  - done.
  - by rewrite <- Hsplit.
  - by rewrite <- Hsplit.
  - rewrite Hlen. unfold len, sorted_reverse. by rewrite Hp.
  - intros x y Hx Hy. rewrite Hsplit in Hs.
    pose proof (StronglySorted_app_1_elem_of _ _ _ x y Hs Hx Hy) as H.
    destruct H as [H | [H _]];
      [exact (Z.lt_le_incl _ _ H) | exact (Z.eq_le_incl _ _ (eq_sym H))].
Qed.

(** X7. Indexing agrees with the ranking: on a table with distinct keys,
    [(k, v)] is an entry of the ranking exactly when [k] is a key and
    [self[k]] is [v]; and [self[k]] is 0, not an error, for a [k] that is
    not a key. *)
Theorem getitem_agrees_with_ranking (c : Counter) (k : str) (v : Z) :
  NoDup c.*1 ->
  ((k, v) ∈ _sorted_items (FrequencyDist_init c) <->
     k ∈ keys (FrequencyDist_init c) /\ __getitem__ (FrequencyDist_init c) k = v)
  /\ (k ∉ keys (FrequencyDist_init c) -> __getitem__ (FrequencyDist_init c) k = 0).
Proof.
  intros Hnd. unfold keys, __getitem__. cbn [counter FrequencyDist_init].
  rewrite (sorted_items_Permutation c), counter_get_to_map. unfold to_map.
  split.
  - rewrite (elem_of_list_to_map (M := gmap str)) by done. split.
    + intros H. rewrite H. split; [| done].
      apply (elem_of_list_to_map_2 (M := gmap str)) in H.
      by apply (list_elem_of_fmap_2 fst) in H.
    + intros [Hk Hv].
      destruct (list_to_map c !! k) as [v' |] eqn:E; [simpl in Hv; by subst |].
      by apply (not_elem_of_list_to_map_2 (M := gmap str)) in E.
  - intros Hk. by rewrite (not_elem_of_list_to_map_1 (M := gmap str)).
Qed.

Lemma getitem_agrees_with_ranking_witness :
  NoDup [(lit "cat", 2); (lit "dog", 5)].*1
  /\ ((lit "dog", 5) ∈ _sorted_items (FrequencyDist_init [(lit "cat", 2); (lit "dog", 5)])
      <-> lit "dog" ∈ keys (FrequencyDist_init [(lit "cat", 2); (lit "dog", 5)])
          /\ __getitem__ (FrequencyDist_init [(lit "cat", 2); (lit "dog", 5)])
               (lit "dog") = 5).
Proof.
  assert (H : NoDup [(lit "cat", 2); (lit "dog", 5)].*1) by decide_by_computation.
  split; [exact H |].
  exact (proj1 (getitem_agrees_with_ranking _ (lit "dog") 5 H)).
Defined.

End Statistics.

(** ** More on the aggregators *)

Lemma elem_of_keys_to_map (c : Terminology.Counter) (k : str) :
  k ∈ c.*1 <-> is_Some (Terminology.to_map c !! k).
Proof.
  unfold Terminology.to_map. rewrite <- not_eq_None_Some.
  rewrite <- (not_elem_of_list_to_map (M := gmap str)).
  destruct (decide (k ∈ c.*1)); tauto.
Qed.

Section AggregationProperties.

Import Terminology.

Variable lower : str -> str.
Variable self : FrequencyAnalyzer.

Local Notation "'stop_list'" := (stop_words (preprocessor self)) (at level 0).

Lemma bucket_keys_app (b : Design.bucket) (l1 l2 : list Token) :
  bucket_keys lower stop_list b (l1 ++ l2) =
    bucket_keys lower stop_list b l1 ++ bucket_keys lower stop_list b l2.
Proof. unfold bucket_keys. by rewrite filter_app, fmap_app. Qed.

Lemma bucket_keys_bind (b : Design.bucket) (docs : list Doc) :
  (docs ≫= fun doc => bucket_keys lower stop_list b (tokens doc)) =
    bucket_keys lower stop_list b (docs ≫= tokens).
Proof.
  induction docs as [| d docs IH]; [done |].
  by rewrite !bind_cons, bucket_keys_app, IH.
Qed.

Lemma occ_bucket_keys (b : Design.bucket) (toks : list Token) (k : str) :
  occ k (bucket_keys lower stop_list b toks) =
    len (filter (fun t => Design.contributes lower stop_list b t
                          /\ lower (lemma_ t) = k) toks).
Proof.
  unfold bucket_keys. induction toks as [| t toks IH]; [done |].
  destruct (Design.contributes lower stop_list b t) eqn:E.
  - rewrite (filter_cons_True (fun t => Design.contributes lower stop_list b t))
      by (by apply Is_true_true).
    rewrite fmap_cons, occ_cons, IH.
    destruct (decide (k = lower (lemma_ t))) as [-> | Hne].
    + rewrite (filter_cons_True (fun t0 => _ /\ _)); [unfold len; simpl; lia |].
      split; [by apply Is_true_true | done].
    + rewrite (filter_cons_False (fun t0 => _ /\ _)); [lia |].
      intros [_ H]. by apply Hne.
  - rewrite (filter_cons_False (fun t => Design.contributes lower stop_list b t))
      by (by apply Is_true_false).
    rewrite IH, (filter_cons_False (fun t0 => _ /\ _)); [done |].
    intros [H _]. apply Is_true_true in H. congruence.
Qed.

Lemma pos_counters_to_map (docs : list Doc) (b : Design.bucket) :
  to_map (counter (pick b (get_pos_frequencies lower self (ChunkList docs)))) =
    foldl add_key ∅ (bucket_keys lower stop_list b (docs ≫= tokens)).
Proof.
  rewrite get_pos_frequencies_counter. unfold pos_counters.
  rewrite process_docs_to_map, bucket_keys_bind. by destruct b.
Qed.

(** X8. For each bucket, [self[k]] on the distribution that
    [get_pos_frequencies] returns is the number of tokens, over all
    chunks, that qualify for the bucket and have the lowercased lemma [k];
    it is 0 when there is none. *)
Theorem getitem_counts_tokens (docs : list Doc) (b : Design.bucket) (k : str) :
  __getitem__ (pick b (get_pos_frequencies lower self (ChunkList docs))) k =
    len (filter (fun t => Design.contributes lower stop_list b t
                          /\ lower (lemma_ t) = k) (docs ≫= tokens)).
Proof.
  unfold __getitem__.
  rewrite counter_get_to_map, pos_counters_to_map, lookup_add_keys, lookup_empty.
  rewrite <- occ_bucket_keys. case_decide as E; [done |].
  by rewrite occ_notin.
Qed.

Lemma contributes_not_stop (b : Design.bucket) (t : Token) :
  Design.contributes lower stop_list b t = true ->
  (lower (lemma_ t) ∉ stop_list) /\ is_stop t = false /\ is_alpha t = true
  /\ 2 < len (text t) /\ pos_ t = Design.bucket_tag b.
Proof.
  unfold Design.contributes, Design.qualifies.
  rewrite !andb_true_iff, !negb_true_iff.
  intros [[[[H1 H2] H3] H4] H5].
  apply bool_decide_eq_true in H3, H5. apply bool_decide_eq_false in H4.
  done.
Qed.

(** X9. The keys of each bucket's table are exactly the lowercased lemmas of
    the tokens that qualify for the bucket; none of them is a stop
    word. *)
Theorem keys_are_qualifying_lemmas (docs : list Doc) (b : Design.bucket) :
  (forall k,
     k ∈ keys (pick b (get_pos_frequencies lower self (ChunkList docs))) <->
     exists t, t ∈ docs ≫= tokens /\ Design.contributes lower stop_list b t
               /\ lower (lemma_ t) = k)
  /\ Forall (fun k => k ∉ stop_list)
       (keys (pick b (get_pos_frequencies lower self (ChunkList docs)))).
Proof.
  assert (H : forall k,
     k ∈ keys (pick b (get_pos_frequencies lower self (ChunkList docs))) <->
     exists t, t ∈ docs ≫= tokens /\ Design.contributes lower stop_list b t
               /\ lower (lemma_ t) = k).
  { intros k. unfold keys.
    rewrite elem_of_keys_to_map, pos_counters_to_map, lookup_add_keys, lookup_empty.
    unfold bucket_keys. split.
    - case_decide as E; [| by intros [? ?]]. intros _.
      apply list_elem_of_fmap in E as (t & -> & Ht).
      apply list_elem_of_filter in Ht as [Hc Ht]. by exists t.
    - intros (t & Ht & Hc & <-). rewrite decide_True; [done |].
      apply (list_elem_of_fmap_2 (fun t => lower (lemma_ t))).
      by apply list_elem_of_filter. }
  split; [exact H |].
  apply Forall_forall. intros k Hk. apply H in Hk as (t & _ & Hc & <-).
  apply Is_true_true in Hc. by apply (contributes_not_stop b t).
Qed.

Lemma process_tokens_app (st : Counter * Counter * Counter) (l1 l2 : list Token) :
  foldl (process_token lower self) st (l1 ++ l2) =
    foldl (process_token lower self) (foldl (process_token lower self) st l1) l2.
Proof. apply foldl_app. Qed.

Lemma process_docs_merged (docs : list Doc) (st : Counter * Counter * Counter) :
  foldl (fun st doc => _process_doc_tokens lower self doc st) st docs =
    foldl (process_token lower self) st (docs ≫= tokens).
Proof.
  revert st. induction docs as [| d docs IH]; intros st; [done |].
  change (foldl ?f st (d :: docs))
    with (foldl f (_process_doc_tokens lower self d st) docs).
  by rewrite IH, bind_cons, process_tokens_app.
Qed.

(** X10. Where the chunks are cut does not matter to the frequency
    distributions: a list of chunks gives the same three distributions,
    with the same insertion order of the entries, as the single chunk that
    holds all their tokens, passed in a list or on its own. *)
Theorem chunk_boundaries_do_not_matter (docs : list Doc) :
  get_pos_frequencies lower self (ChunkList docs) =
    get_pos_frequencies lower self (OneChunk (merged_chunk docs))
  /\ get_pos_frequencies lower self (ChunkList [merged_chunk docs]) =
       get_pos_frequencies lower self (OneChunk (merged_chunk docs)).
Proof.
  unfold get_pos_frequencies, pos_counters.
  by rewrite process_docs_merged.
Qed.

Lemma py_sum_incr (c : Counter) (k : str) :
  py_sum (counter_incr c k).*2 = py_sum c.*2 + 1.
Proof.
  induction c as [| [k' v] c IH]; [done |].
  change (counter_incr ((k', v) :: c) k)
    with (if decide (k' = k) then (k', v + 1) :: c
          else (k', v) :: counter_incr c k).
  destruct (decide (k' = k)); rewrite !fmap_cons, !py_sum_cons; cbn [snd].
  - lia.
  - rewrite IH. lia.
Qed.

Lemma py_sum_process_tokens (toks : list Token)
    (st : Counter * Counter * Counter) (b : Design.bucket) :
  py_sum (pick b (foldl (process_token lower self) st toks)).*2 =
    py_sum (pick b st).*2
    + len (filter (fun t => Design.contributes lower stop_list b t) toks).
Proof.
  revert st. induction toks as [| t toks IH]; intros st; [simpl; unfold len; simpl; lia |].
  change (foldl (process_token lower self) st (t :: toks))
    with (foldl (process_token lower self) (process_token lower self st t) toks).
  rewrite IH, process_token_pick.
  destruct (Design.contributes lower stop_list b t) eqn:E.
  - rewrite filter_cons_True by (by apply Is_true_true).
    rewrite py_sum_incr. unfold len. simpl. lia.
  - rewrite filter_cons_False by (by apply Is_true_false). done.
Qed.

(** X11. The statistics of a bucket count its tokens: when no token over all
    chunks qualifies for the bucket, [get_stats] on its distribution
    raises [ValueError]; otherwise it returns, the total of occurrences is
    the number of qualifying tokens and the number of unique words is at
    most that. *)
Theorem get_stats_counts_tokens (docs : list Doc) (b : Design.bucket) :
  let dist := pick b (get_pos_frequencies lower self (ChunkList docs)) in
  let n := len (filter (fun t => Design.contributes lower stop_list b t)
                       (docs ≫= tokens)) in
  (n = 0 /\ get_stats dist = Raises ValueError)
  \/ (0 < n /\ exists s, get_stats dist = Returns s
                 /\ total_occurrences s = n /\ 1 <= unique_words s <= n).
Proof.
  intros dist n.
  assert (Hc : counter dist = pick b (pos_counters lower self (ChunkList docs)))
    by apply get_pos_frequencies_counter.
  assert (Hsum : py_sum (counter dist).*2 = n).
  { rewrite Hc. unfold pos_counters. rewrite process_docs_merged.
    rewrite py_sum_process_tokens. by destruct b. }
  destruct (pos_counters_count_table lower self (ChunkList docs) b) as [_ Hpos].
  rewrite <- Hc in Hpos.
  assert (Hinit : dist = FrequencyDist_init (counter dist)).
  { unfold dist, get_pos_frequencies.
    by destruct (pos_counters lower self (ChunkList docs)) as [[? ?] ?], b. }
  destruct (counter dist) as [| wc c] eqn:E.
  - left. split; [by rewrite <- Hsum |].
    by rewrite Hinit.
  - right.
    assert (Hlen : len (wc :: c) <= n).
    { rewrite <- Hsum. unfold len. rewrite <- (length_fmap snd (wc :: c)).
      apply py_sum_at_least. by apply Forall_fmap. }
    assert (0 < len (wc :: c)) by (unfold len; simpl; lia).
    split; [lia |].
    destruct (get_stats_returns (wc :: c)) as (s & Hs & Ht & Hu & _); [done |].
    exists s. rewrite Hinit.
    split; [exact Hs |]. rewrite Ht, Hu. lia.
Qed.

End AggregationProperties.

Section PhraseProperties.

Import Terminology.

Variable lower : str -> str.

Lemma phrase_step_count_table (np : Counter) (span : list Token) :
  count_table np -> count_table (phrase_step lower np span).
Proof.
  intros [Hnd Hpos]. unfold phrase_step.
  destruct (_ && _); [| done].
  split; [by apply counter_incr_NoDup | by apply counter_incr_positive].
Qed.

Lemma noun_phrase_counter_count_table (self : PhraseAnalyzer) (docs : list Doc) :
  count_table (noun_phrase_counter lower self docs).
Proof.
  unfold noun_phrase_counter.
  assert (H0 : count_table ([] : Counter)) by (split; constructor).
  revert H0. generalize ([] : Counter).
  induction docs as [| d docs IH]; intros np Hnp; [done |].
  apply IH. clear IH. revert np Hnp.
  induction (noun_chunks d) as [| span spans IH]; intros np Hnp; [done |].
  apply IH. by apply phrase_step_count_table.
Qed.

(** X12. The tables behind the distributions that [get_pos_frequencies] and
    [get_noun_phrases] return are Count Tables: their keys are distinct
    and every count is at least 1, so no entry is ever listed with a count
    of 0 and the default [min_freq] of [least_common] leaves nothing
    out. *)
Theorem aggregators_build_count_tables (fa : FrequencyAnalyzer)
    (pa : PhraseAnalyzer) (doc_chunks : doc_chunks_arg) (docs : list Doc)
    (b : Design.bucket) :
  count_table (counter (pick b (get_pos_frequencies lower fa doc_chunks)))
  /\ count_table (counter (get_noun_phrases lower pa docs)).
Proof.
  split.
  - rewrite get_pos_frequencies_counter. apply pos_counters_count_table.
  - apply noun_phrase_counter_count_table.
Qed.

(** X13. The phrase table does not depend on where the chunks are cut either,
    and none of its keys is a phrase of fewer than 2 components. *)
Theorem phrase_keys_have_two_components (pa : PhraseAnalyzer) (docs : list Doc) :
  get_noun_phrases lower pa docs = get_noun_phrases lower pa [merged_chunk docs]
  /\ Forall (fun phrase => 2 <= len (split phrase))
       (keys (get_noun_phrases lower pa docs)).
Proof.
  split.
  - unfold get_noun_phrases, noun_phrase_counter. f_equal.
    change (foldl ?f [] [merged_chunk docs])
      with (foldl (phrase_step lower) [] (docs ≫= noun_chunks)).
    generalize ([] : Counter).
    induction docs as [| d docs IH]; intros np; [done |].
    change (foldl ?f np (d :: docs)) with (foldl f (f np d) docs).
    by rewrite IH, bind_cons, foldl_app.
  - apply Forall_forall. intros k Hk. unfold keys, get_noun_phrases in Hk.
    cbn [counter FrequencyDist_init] in Hk.
    apply elem_of_keys_to_map in Hk.
    rewrite phrase_docs_to_map, lookup_add_keys, lookup_empty in Hk.
    case_decide as E; [| by destruct Hk].
    unfold Design.counted_phrases in E.
    by apply list_elem_of_filter in E as [E _].
Qed.

End PhraseProperties.

Section TokenContributions.

Import Terminology.

Variable lower : str -> str.
Variable self : FrequencyAnalyzer.

Local Notation "'stop_set'" := (stop_words (preprocessor self)) (at level 0).

Lemma counter_get_process_tokens (toks : list Token)
    (st : Counter * Counter * Counter) (b : Design.bucket) (k : str) :
  counter_get (pick b (foldl (process_token lower self) st toks)) k =
    counter_get (pick b st) k
    + len (filter (fun t => Design.contributes lower stop_set b t
                            /\ lower (lemma_ t) = k) toks).
Proof.
  rewrite !counter_get_to_map, process_tokens_to_map, lookup_add_keys.
  rewrite <- occ_bucket_keys.
  case_decide as E; [done |]. rewrite occ_notin by done. lia.
Qed.

(** C4. In frequency aggregation a token adds exactly 1 to the count of
    its lowercased lemma in the bucket of its tag, and changes nothing
    else, when it is not a stop word, is alphabetic, has a surface text
    of more than 2 characters, has a lowercased lemma that is not a stop
    word, and is tagged VERB, NOUN or ADJ; any other token changes no
    counter.  So after [_process_doc_tokens] the count of a key in a
    bucket has grown by the number of tokens of the chunk that satisfy
    these conditions for the bucket and have that lowercased lemma; in
    the distributions of [get_pos_frequencies] the count is that number
    over all the tokens visited; and no token satisfies the conditions
    for two buckets. *)
Theorem tokens_contribute_once (doc : Doc) (doc_chunks : doc_chunks_arg)
    (st : Counter * Counter * Counter) (t : Token) (b : Design.bucket)
    (k : str) :
  counter_get (pick b (_process_doc_tokens lower self doc st)) k =
    counter_get (pick b st) k
    + len (filter (fun t => Design.contributes lower stop_set b t
                            /\ lower (lemma_ t) = k) (tokens doc))
  /\ counter_get (counter (pick b (get_pos_frequencies lower self doc_chunks))) k =
       len (filter (fun t => Design.contributes lower stop_set b t
                             /\ lower (lemma_ t) = k)
                   (visited_tokens doc_chunks))
  /\ pick b (process_token lower self st t) =
       (if Design.contributes lower stop_set b t
        then counter_incr (pick b st) (lower (lemma_ t))
        else pick b st)
  /\ (forall k',
        counter_get (counter_incr (pick b st) (lower (lemma_ t))) k' =
          counter_get (pick b st) k'
          + (if decide (k' = lower (lemma_ t)) then 1 else 0))
  /\ (forall b',
        Design.contributes lower stop_set b t
        && Design.contributes lower stop_set b' t =
          Design.contributes lower stop_set b t && bool_decide (b = b')).
Proof.
  split_and!.
  - apply counter_get_process_tokens.
  - rewrite get_pos_frequencies_counter.
    assert (E : counter_get (pick b (([], [], []) : Counter * Counter * Counter)) k = 0)
      by (by destruct b).
    destruct doc_chunks as [docs | doc']; unfold pos_counters, visited_tokens.
    + rewrite process_docs_merged, counter_get_process_tokens, E. lia.
    + unfold _process_doc_tokens. rewrite counter_get_process_tokens, E. lia.
  - apply process_token_pick.
  - intros k'. apply counter_get_incr.
  - intros b'. apply contributes_one_bucket.
Qed.

End TokenContributions.

(** ** More on the formality classifier *)

Section FormalityProperties.

Variable lower : str -> str.

Lemma check_formality_type_verdict (text : str) (nlp : str -> Doc) :
  TM.check_formality_type lower text nlp =
    Design.classify lower (tokens (nlp text)).
Proof.
  unfold TM.check_formality_type, Design.classify.
  rewrite formality_fold. simpl.
  by destruct (existsb _ _), (existsb _ _).
Qed.

Lemma existsb_Permutation {A} (f : A -> bool) (l1 l2 : list A) :
  l1 ≡ₚ l2 -> existsb f l1 = existsb f l2.
Proof.
  induction 1 as [| x l1 l2 _ IH | x y l | l1 l2 l3 _ IH1 _ IH2]; simpl.
  - done.
  - by rewrite IH.
  - by destruct (f x), (f y).
  - by rewrite IH1.
Qed.

(** X14. The verdict does not depend on the order of the tokens: two texts
    whose tokens are the same up to order get the same verdict. *)
Theorem formality_ignores_token_order (text1 text2 : str)
    (nlp1 nlp2 : str -> Doc) :
  tokens (nlp1 text1) ≡ₚ tokens (nlp2 text2) ->
  TM.check_formality_type lower text1 nlp1 =
    TM.check_formality_type lower text2 nlp2.
Proof.
  intros Hp. rewrite !check_formality_type_verdict. unfold Design.classify.
  by rewrite !(existsb_Permutation _ _ _ Hp).
Qed.

Lemma verdicts_distinct :
  lit "Formal" <> lit "Informal" /\ lit "Formal" <> lit "Not Applicable"
  /\ lit "Informal" <> lit "Not Applicable".
Proof. split_and!; intros H; vm_compute in H; discriminate. Qed.

(** X15. The verdict of a text whose tokens are those of two texts, one after
    the other, when each of the two is Formal or Informal: the common
    verdict if they agree, Not Applicable if they differ. *)
Theorem formality_of_concatenation (text text1 text2 : str)
    (nlp nlp1 nlp2 : str -> Doc) :
  tokens (nlp text) = tokens (nlp1 text1) ++ tokens (nlp2 text2) ->
  TM.check_formality_type lower text1 nlp1 ∈ [lit "Formal"; lit "Informal"] ->
  TM.check_formality_type lower text2 nlp2 ∈ [lit "Formal"; lit "Informal"] ->
  TM.check_formality_type lower text nlp =
    if decide (TM.check_formality_type lower text1 nlp1 =
               TM.check_formality_type lower text2 nlp2)
    then TM.check_formality_type lower text1 nlp1
    else lit "Not Applicable".
Proof.
  destruct verdicts_distinct as (H1 & H2 & H3).
  rewrite !check_formality_type_verdict. intros ->.
  unfold Design.classify. rewrite !existsb_app.
  destruct (existsb (Design.plural_evidence lower) (tokens (nlp1 text1))),
    (existsb (Design.singular_evidence lower) (tokens (nlp1 text1))),
    (existsb (Design.plural_evidence lower) (tokens (nlp2 text2))),
    (existsb (Design.singular_evidence lower) (tokens (nlp2 text2)));
    cbn [Design.verdict orb];
    rewrite !elem_of_cons, !elem_of_nil; intros Hv1 Hv2;
    case_decide; try done; try tauto; try congruence;
    intuition congruence.
Qed.

End FormalityProperties.

Lemma formality_ignores_token_order_witness :
  tokens (const_nlp [word "Tu" "tu" "PRON"; word "viens" "venir" "VERB"] []
            (lit "Tu viens"))
    ≡ₚ tokens (const_nlp [word "viens" "venir" "VERB"; word "Tu" "tu" "PRON"] []
                 (lit "viens Tu"))
  /\ TM.check_formality_type lower_latin1 (lit "Tu viens")
       (const_nlp [word "Tu" "tu" "PRON"; word "viens" "venir" "VERB"] []) =
     TM.check_formality_type lower_latin1 (lit "viens Tu")
       (const_nlp [word "viens" "venir" "VERB"; word "Tu" "tu" "PRON"] []).
Proof.
  assert (H : tokens (const_nlp [word "Tu" "tu" "PRON"; word "viens" "venir" "VERB"] []
                        (lit "Tu viens"))
              ≡ₚ tokens (const_nlp [word "viens" "venir" "VERB"; word "Tu" "tu" "PRON"] []
                           (lit "viens Tu")))
    by apply Permutation_swap.
  split; [exact H |].
  exact (formality_ignores_token_order lower_latin1 _ _ _ _ H).
Defined.

Lemma formality_of_concatenation_witness :
  tokens (const_nlp [word "Vous" "vous" "PRON"; word "tu" "tu" "PRON"] []
            (lit "Vous venez, tu viens")) =
    tokens (const_nlp [word "Vous" "vous" "PRON"] [] (lit "Vous venez"))
    ++ tokens (const_nlp [word "tu" "tu" "PRON"] [] (lit "tu viens"))
  /\ TM.check_formality_type lower_latin1 (lit "Vous venez")
       (const_nlp [word "Vous" "vous" "PRON"] []) = lit "Formal"
  /\ TM.check_formality_type lower_latin1 (lit "tu viens")
       (const_nlp [word "tu" "tu" "PRON"] []) = lit "Informal"
  /\ TM.check_formality_type lower_latin1 (lit "Vous venez, tu viens")
       (const_nlp [word "Vous" "vous" "PRON"; word "tu" "tu" "PRON"] []) =
     lit "Not Applicable".
Proof.
  split; [reflexivity |]. split; [by vm_compute |]. split; [by vm_compute |].
  rewrite (formality_of_concatenation lower_latin1
             (lit "Vous venez, tu viens") (lit "Vous venez") (lit "tu viens")
             (const_nlp [word "Vous" "vous" "PRON"; word "tu" "tu" "PRON"] [])
             (const_nlp [word "Vous" "vous" "PRON"] [])
             (const_nlp [word "tu" "tu" "PRON"] [])).
  - reflexivity.
  - reflexivity.
  - decide_by_computation.
  - decide_by_computation.
Defined.

(** ** More on the text chunker *)

Section Trimming.

Lemma lstrip_spec (x : str) :
  (exists pre, x = pre ++ lstrip x /\ Forall (fun c => isspace c = true) pre)
  /\ (lstrip x = [] \/ exists c r, lstrip x = c :: r /\ isspace c = false).
Proof.
  induction x as [| c x [(pre & Hx & Hpre) IH]]; simpl.
  - split; [by exists [] | by left].
  - destruct (isspace c) eqn:Hc.
    + split; [| exact IH]. exists (c :: pre). split; [by rewrite Hx at 1 | by constructor].
    + split; [by exists [] | right; by exists c, x].
Qed.

Lemma lstrip_nonspace (c : char) (x : str) :
  isspace c = false -> lstrip (c :: x) = c :: x.
Proof. intros Hc. simpl. by rewrite Hc. Qed.

Lemma lstrip_snoc_nonspace (x : str) (c : char) :
  isspace c = false -> exists m, lstrip (x ++ [c]) = m ++ [c].
Proof.
  intros Hc. induction x as [| d x [m IH]]; simpl.
  - rewrite Hc. by exists [].
  - destruct (isspace d); [by exists m |]. by exists (d :: x).
Qed.

Lemma trimmed_inv (p : str) :
  trimmed p ->
  exists a r b r', p = a :: r /\ p = r' ++ [b]
                   /\ isspace a = false /\ isspace b = false.
Proof.
  unfold trimmed. destruct p as [| a r]; [done |]. simpl.
  destruct (last (a :: r)) as [b |] eqn:E; [| done].
  intros [Ha Hb]. apply last_Some in E as [r' E].
  by exists a, r, b, r'.
Qed.

Lemma strip_trimmed (x : str) : strip x <> [] -> trimmed (strip x).
Proof.
  unfold strip, rstrip. intros Hne.
  destruct (lstrip_spec x) as [_ [E | (a & r & E & Ha)]].
  { rewrite E in Hne. done. }
  rewrite E, reverse_cons.
  destruct (lstrip_snoc_nonspace (reverse r) a Ha) as [m Hm].
  destruct (lstrip_spec (reverse r ++ [a])) as [_ [E' | (b & r' & E' & Hb)]].
  { rewrite Hm in E'. by destruct m. }
  assert (Hl : last (lstrip (reverse r ++ [a])) = Some a)
    by (rewrite Hm; apply last_snoc).
  assert (Hh : head (lstrip (reverse r ++ [a])) = Some b) by (by rewrite E').
  unfold trimmed. by rewrite head_reverse, last_reverse, Hl, Hh.
Qed.

Lemma strip_id (p : str) : trimmed p -> strip p = p.
Proof.
  intros (a & r & b & r' & H1 & H2 & Ha & Hb)%trimmed_inv.
  unfold strip, rstrip. rewrite H1 at 1. rewrite (lstrip_nonspace _ _ Ha).
  rewrite <- H1, H2, reverse_snoc.
  rewrite (lstrip_nonspace _ _ Hb).
  by rewrite reverse_cons, reverse_involutive.
Qed.

Lemma strip_substring (x : str) : exists pre post, x = pre ++ strip x ++ post.
Proof.
  unfold strip, rstrip.
  destruct (lstrip_spec x) as [(pre & Hx & _) _].
  destruct (lstrip_spec (reverse (lstrip x))) as [(post & Hr & _) _].
  exists pre, (reverse post). rewrite Hx at 1. f_equal.
  rewrite <- reverse_app, <- Hr. by rewrite reverse_involutive.
Qed.

End Trimming.

Section Boundaries.

Import Terminology.

Lemma has_boundary_substring (pre p post : str) :
  Design.has_boundary p -> Design.has_boundary (pre ++ p ++ post).
Proof.
  intros (a & m & b & -> & Hm). exists (pre ++ a), m, (b ++ post).
  split; [| done]. by rewrite <- !app_assoc.
Qed.

Lemma blank_run_ws_nl (m rest : str) :
  Forall (fun c => isspace c = true) m -> is_Some (blank_run (m ++ NL :: rest)).
Proof.
  induction 1 as [| c m Hc Hm IH]; simpl.
  - destruct (blank_run rest); by eexists.
  - rewrite Hc. destruct IH as [k ->]. by eexists.
Qed.

Lemma piece_open_no_boundary (pre x : str) :
  piece_open pre x -> ~ Design.has_boundary pre.
Proof.
  intros Hopen (a & m & b & -> & Hm).
  specialize (Hopen a (m ++ [NL] ++ b) eq_refl).
  destruct (blank_run_ws_nl m (b ++ x) Hm) as [k Hk].
  rewrite <- !app_assoc in Hopen. simpl in Hopen. congruence.
Qed.

Lemma piece_open_snoc (pre x : str) (c : char) :
  piece_open pre (c :: x) -> (c = NL -> blank_run x = None) ->
  piece_open (pre ++ [c]) x.
Proof.
  intros Hopen Hc a m E.
  destruct (decide (m = [])) as [-> | Hm].
  - apply app_inj_tail in E as [_ ->]. by apply Hc.
  - destruct (exists_last Hm) as (m' & d & ->).
    rewrite app_comm_cons, app_assoc in E.
    apply app_inj_tail in E as [-> ->].
    rewrite <- app_assoc. simpl. by apply (Hopen a m').
Qed.

Lemma re_split_pieces_no_boundary (x cur : str) (skip : nat) :
  (skip = O -> piece_open (reverse cur) x) -> (skip <> O -> cur = []) ->
  Forall (fun p => ~ Design.has_boundary p) (re_split_go skip cur x).
Proof.
  revert cur skip. induction x as [| c x IH]; intros cur skip Hopen Hskip; simpl.
  - constructor; [| constructor].
    destruct skip as [| k].
    + by eapply piece_open_no_boundary, Hopen.
    + rewrite Hskip by done. by intros (a & m & b & E & _); destruct a.
  - destruct skip as [| k].
    + assert (Hpush : (c = NL -> blank_run x = None) ->
                Forall (fun p => ~ Design.has_boundary p)
                       (re_split_go 0 (c :: cur) x)).
      { intros Hc. apply IH; [| done]. intros _.
        rewrite reverse_cons. by apply piece_open_snoc; [apply Hopen |]. }
      destruct (N.eqb_spec c NL) as [-> | Hne]; [| by apply Hpush].
      destruct (blank_run x) as [k |] eqn:Hk; [| by apply Hpush].
      constructor; [by eapply piece_open_no_boundary, Hopen |].
      apply IH; [| done]. intros ->. by intros a m E; destruct a.
    + rewrite Hskip by done. apply IH; [| done].
      intros ->. by intros a m E; destruct a.
Qed.

Lemma split_paragraphs_clean (text : str) :
  Forall (fun p => trimmed p /\ ~ Design.has_boundary p) (split_paragraphs text).
Proof.
  unfold split_paragraphs, re_split_blank_lines.
  apply Forall_fmap, Forall_forall. intros p Hp.
  apply list_elem_of_filter in Hp as [Hne Hp]. simpl. split.
  - by apply strip_trimmed.
  - intros Hb.
    pose proof (re_split_pieces_no_boundary text [] O) as Hall.
    rewrite Forall_forall in Hall. apply (Hall ltac:(by intros _ a m E; destruct a)
                                               ltac:(done) p Hp).
    destruct (strip_substring p) as (pre & post & E). rewrite E.
    by apply has_boundary_substring.
Qed.

(** X16. Every paragraph that [split_paragraphs] returns starts and ends
    with a character that is not whitespace (so it is not empty), and has
    no blank line inside: no two line feeds with only whitespace between
    them. *)
Theorem paragraphs_are_trimmed_and_unbroken (text : str) :
  Forall (fun p => trimmed p /\ ~ Design.has_boundary p) (split_paragraphs text).
Proof. apply split_paragraphs_clean. Qed.

End Boundaries.

Section RoundTrip.

Import Terminology.

Lemma blank_run_None_nonspace (m : str) (c : char) (r : str) :
  Forall (fun c => isspace c = true) m -> NL ∉ m -> isspace c = false ->
  blank_run (m ++ c :: r) = None.
Proof.
  intros Hm Hnl Hc. induction Hm as [| d m Hd Hm IH]; simpl.
  - by rewrite Hc.
  - apply not_elem_of_cons in Hnl as [Hne Hnl].
    rewrite Hd, IH by done.
    destruct (N.eqb_spec d NL); [by subst | done].
Qed.

Lemma first_nonspace (l : str) (b : char) :
  b ∈ l -> isspace b = false ->
  exists m c r, l = m ++ c :: r /\ Forall (fun c => isspace c = true) m
                /\ isspace c = false.
Proof.
  intros Hin Hb. induction l as [| d l IH]; [by apply elem_of_nil in Hin |].
  destruct (isspace d) eqn:Hd.
  - apply elem_of_cons in Hin as [-> | Hin]; [congruence |].
    destruct (IH Hin) as (m & c & r & -> & Hm & Hc).
    exists (d :: m), c, r. split_and!; [done | by constructor | done].
  - exists [], d, l. split_and!; [done | constructor | done].
Qed.

Lemma trimmed_after_NL (p a r1 z : str) :
  trimmed p -> ~ Design.has_boundary p -> p = a ++ NL :: r1 ->
  blank_run (r1 ++ z) = None.
Proof.
  intros (a0 & r0 & b & r' & _ & Hlast & _ & Hb)%trimmed_inv Hnb E.
  assert (Hin : b ∈ r1).
  { destruct (decide (r1 = [])) as [-> | Hne].
    - rewrite E in Hlast. change (a ++ [NL]) with (a ++ [NL]) in Hlast.
      apply app_inj_tail in Hlast as [_ <-]. done.
    - destruct (exists_last Hne) as (r1' & d & ->).
      rewrite E, app_comm_cons, app_assoc in Hlast.
      apply app_inj_tail in Hlast as [_ ->].
      apply elem_of_app. right. apply list_elem_of_here. }
  destruct (first_nonspace r1 b Hin Hb) as (m & c & r2 & -> & Hm & Hc).
  rewrite <- app_assoc. simpl. apply blank_run_None_nonspace; [done | | done].
  intros (m1 & m2 & ->)%list_elem_of_split. apply Hnb.
  exists a, m1, (m2 ++ c :: r2). split.
  - rewrite E. by rewrite <- !app_assoc.
  - by apply Forall_app in Hm as [Hm _].
Qed.

Lemma scan_piece (p z cur : str) :
  (forall a r1, p = a ++ NL :: r1 -> blank_run (r1 ++ z) = None) ->
  re_split_go O cur (p ++ z) = re_split_go O (reverse p ++ cur) z.
Proof.
  revert cur. induction p as [| c p IH]; intros cur Hp; [done |].
  assert (E : re_split_go O (c :: cur) (p ++ z) =
              re_split_go O (reverse (c :: p) ++ cur) z).
  { rewrite IH; [by rewrite reverse_cons, <- app_assoc |].
    intros a r1 ->. by apply (Hp (c :: a) r1). }
  simpl. destruct (N.eqb_spec c NL) as [-> | Hne]; [| exact E].
  by rewrite (Hp [] p eq_refl).
Qed.

Lemma join_cons_cons (sep p q : str) (ps : list str) :
  join sep (p :: q :: ps) = p ++ sep ++ join sep (q :: ps).
Proof. done. Qed.

Lemma join_head (sep p : str) (ps : list str) (a : char) (r : str) :
  p = a :: r -> exists r', join sep (p :: ps) = a :: r'.
Proof.
  intros ->. destruct ps as [| q ps]; [by exists r |].
  rewrite join_cons_cons. by eexists.
Qed.

Lemma re_split_join (p : str) (ps : list str) :
  Forall (fun p => trimmed p /\ ~ Design.has_boundary p) (p :: ps) ->
  re_split_blank_lines (join [NL; NL] (p :: ps)) = p :: ps.
Proof.
  unfold re_split_blank_lines.
  revert p. induction ps as [| q ps IH]; intros p Hall.
  - apply Forall_cons in Hall as [[_ Hnb] _]. simpl.
    by rewrite re_split_no_boundary.
  - apply Forall_cons in Hall as [[Hp Hnb] Hall].
    rewrite join_cons_cons, scan_piece
      by (intros a r1 E; by apply (trimmed_after_NL p a r1)).
    pose proof Hall as Hq. apply Forall_cons in Hq as [[Hq _] _].
    apply trimmed_inv in Hq as (a & r & _ & _ & Hq & _ & Ha & _).
    destruct (join_head [NL; NL] q ps a r Hq) as [r' Hj].
    change ([NL; NL] ++ join [NL; NL] (q :: ps))
      with (NL :: NL :: join [NL; NL] (q :: ps)).
    cbn [re_split_go]. change (NL =? NL)%N with true. cbv iota.
    assert (Hrun : blank_run (NL :: join [NL; NL] (q :: ps)) = Some 1%nat).
    { rewrite Hj. simpl. by rewrite Ha. }
    rewrite Hrun. cbn [re_split_go].
    rewrite app_nil_r, reverse_involutive. f_equal. by apply IH.
Qed.

Lemma split_paragraphs_join (ps : list str) :
  Forall (fun p => trimmed p /\ ~ Design.has_boundary p) ps ->
  split_paragraphs (join [NL; NL] ps) = ps.
Proof.
  intros Hall. unfold split_paragraphs.
  destruct ps as [| p ps]; [done |].
  rewrite re_split_join by done.
  assert (Hstrip : Forall (fun p => strip p = p /\ strip p <> []) (p :: ps)).
  { eapply Forall_impl; [exact Hall |]. intros q [Hq _]. simpl.
    rewrite (strip_id q Hq). split; [done |]. intros ->. by apply Hq. }
  rewrite filter_all by (eapply Forall_impl; [exact Hstrip |]; by intros q [_ ?]).
  clear Hall. induction Hstrip as [| q qs [Hq _] _ IH]; [done |].
  by rewrite fmap_cons, Hq, IH.
Qed.

Lemma group_fold_groups_from (size : Z) (paras : list str)
    (groups : list (list str)) (cur : list str) (n : Z) :
  (foldl (group_step size) (groups, cur, n) paras).1.1
    ++ [(foldl (group_step size) (groups, cur, n) paras).1.2] =
  groups ++ groups_from size cur n paras.
Proof.
  revert groups cur n. induction paras as [| p paras IH]; intros groups cur n.
  - done.
  - change (foldl ?f ?a (p :: paras)) with (foldl f (f a p) paras).
    unfold group_step at 2 4. simpl. case_bool_decide.
    + by rewrite IH, <- app_assoc.
    + by rewrite IH.
Qed.

Lemma groups_from_head (size : Z) (paras cur : list str) (n : Z) :
  exists extra rest, groups_from size cur n paras = (cur ++ extra) :: rest.
Proof.
  revert cur n. induction paras as [| p paras IH]; intros cur n; simpl.
  - exists [], []. by rewrite app_nil_r.
  - case_bool_decide.
    + exists [], (groups_from size [p] (len p) paras). by rewrite app_nil_r.
    + destruct (IH (cur ++ [p]) (n + len p)) as (extra & rest & ->).
      exists (p :: extra), rest. by rewrite <- app_assoc.
Qed.

Lemma groups_from_last (size : Z) (paras cur : list str) (n : Z) :
  cur <> [] \/ paras <> [] ->
  exists g, last (groups_from size cur n paras) = Some g /\ g <> [].
Proof.
  revert cur n. induction paras as [| p paras IH]; intros cur n Hne; simpl.
  - exists cur. split; [done |]. by destruct Hne.
  - case_bool_decide.
    + destruct (IH [p] (len p)) as (g & Hg & Hg'); [by left |].
      exists g. split; [| done].
      destruct (groups_from size [p] (len p) paras); [done | exact Hg].
    + apply IH. left. by destruct cur.
Qed.

Lemma chunk_groups_from (size : Z) (paras : list str) :
  chunk_groups size paras =
    match paras with
    | [] => []
    | _ => groups_from size [] 0 paras
    end.
Proof.
  destruct paras as [| p paras]; [done |].
  unfold chunk_groups, close_groups.
  pose proof (group_fold_groups_from size (p :: paras) [] [] 0) as E.
  destruct (groups_from_last size (p :: paras) [] 0) as (g & Hg & Hne);
    [by right |].
  destruct (foldl _ _ _) as [[groups cur] n].
  cbn [fst snd] in E. rewrite app_nil_l in E.
  rewrite <- E in Hg. rewrite last_snoc in Hg. injection Hg as ->.
  rewrite <- E. by destruct g.
Qed.

Lemma concat_groups_from (size : Z) (paras cur : list str) (n : Z) :
  concat (groups_from size cur n paras) = cur ++ paras.
Proof.
  revert cur n. induction paras as [| p paras IH]; intros cur n; simpl.
  - done.
  - case_bool_decide; simpl; rewrite IH; [done | by rewrite <- app_assoc].
Qed.

Lemma concat_chunk_groups (size : Z) (paras : list str) :
  concat (chunk_groups size paras) = paras.
Proof.
  rewrite chunk_groups_from. destruct paras; [done |].
  by rewrite concat_groups_from.
Qed.

Lemma groups_from_sorted (size : Z) (paras cur : list str) (n : Z) :
  n = total_len cur -> Sorted (greedy_next size) (groups_from size cur n paras).
Proof.
  revert cur n. induction paras as [| p paras IH]; intros cur n Hn; simpl.
  - by repeat constructor.
  - case_bool_decide as Hgt.
    + constructor; [apply IH; simpl; lia |].
      destruct (groups_from_head size paras [p] (len p)) as (extra & rest & ->).
      constructor. exists p, extra. split; [done | lia].
    + apply IH. rewrite total_len_app. simpl. lia.
Qed.

Lemma total_len_nonneg (paras : list str) : 0 <= total_len paras.
Proof. induction paras; simpl; unfold len in *; lia. Qed.

Lemma groups_from_fits (size : Z) (paras cur : list str) (n : Z) :
  n + total_len paras <= size -> groups_from size cur n paras = [cur ++ paras].
Proof.
  revert cur n. induction paras as [| p paras IH]; intros cur n Hfit; simpl.
  - by rewrite app_nil_r.
  - simpl in Hfit. pose proof (total_len_nonneg paras).
    assert (0 <= len p) by (unfold len; lia).
    rewrite bool_decide_false by lia.
    rewrite IH by lia. by rewrite <- app_assoc.
Qed.

Lemma elem_of_concat_2 {A} (x : A) (g : list A) (groups : list (list A)) :
  x ∈ g -> g ∈ groups -> x ∈ concat groups.
Proof.
  intros Hx Hg. induction groups as [| g' groups IH]; [by apply elem_of_nil in Hg |].
  simpl. apply elem_of_app.
  apply elem_of_cons in Hg as [-> | Hg]; [by left | right; by apply IH].
Qed.

Variable self : TextPreprocessor.

(** X17. The text of every chunk splits back into the paragraphs that were put
    in the chunk: joining paragraphs with a blank line and splitting the
    result gives the paragraphs again.  In particular splitting the
    joined paragraphs of a text gives the paragraphs of the text. *)
Theorem chunk_text_splits_back (text : str) :
  exists groups : list (list str),
    process_text self text = (fun g => nlp self (join [NL; NL] g)) <$> groups
    /\ concat groups = split_paragraphs text
    /\ Forall (fun g => split_paragraphs (join [NL; NL] g) = g) groups
    /\ split_paragraphs (join [NL; NL] (split_paragraphs text)) =
         split_paragraphs text.
Proof.
  exists (chunk_groups (chunk_size self) (split_paragraphs text)).
  pose proof (split_paragraphs_clean text) as Hclean.
  pose proof (concat_chunk_groups (chunk_size self) (split_paragraphs text)) as Hcat.
  split_and!.
  - apply process_text_groups.
  - exact Hcat.
  - apply Forall_forall. intros g Hg. apply split_paragraphs_join.
    apply Forall_forall. intros p Hp. rewrite Forall_forall in Hclean.
    apply Hclean. rewrite <- Hcat. by apply (elem_of_concat_2 p g).
  - by apply split_paragraphs_join.
Qed.

(** X18. The chunks are filled greedily, for any [chunk_size]: every chunk
    after the first starts with a paragraph that, added to the paragraphs
    of the chunk before it, would have totalled more than [chunk_size]
    (so it is not empty), and the first chunk is empty exactly when the
    first paragraph alone is longer than [chunk_size]. *)
Theorem chunks_are_greedy (text : str) :
  exists groups : list (list str),
    process_text self text = (fun g => nlp self (join [NL; NL] g)) <$> groups
    /\ concat groups = split_paragraphs text
    /\ Sorted (greedy_next (chunk_size self)) groups
    /\ (head groups = Some [] <->
        exists p ps, split_paragraphs text = p :: ps /\ chunk_size self < len p).
Proof.
  exists (chunk_groups (chunk_size self) (split_paragraphs text)).
  split_and!.
  - apply process_text_groups.
  - apply concat_chunk_groups.
  - rewrite chunk_groups_from. destruct (split_paragraphs text); [constructor |].
    by apply groups_from_sorted.
  - rewrite chunk_groups_from.
    destruct (split_paragraphs text) as [| p ps].
    { split; [done | by intros (? & ? & ? & _)]. }
    cbn [groups_from]. case_bool_decide as Hgt.
    + split; [| done]. intros _. exists p, ps. split; [done | lia].
    + destruct (groups_from_head (chunk_size self) ps ([] ++ [p]) (0 + len p))
        as (extra & rest & ->).
      split; [done |]. intros (p' & ps' & [= <- <-] & Hlt). lia.
Qed.

(** X19. A text whose paragraphs total at most [chunk_size] characters is
    handed to the annotation engine in one piece: its paragraphs joined
    by blank lines. *)
Theorem fitting_text_is_one_chunk (text : str) :
  split_paragraphs text <> [] ->
  total_len (split_paragraphs text) <= chunk_size self ->
  process_text self text = [nlp self (join [NL; NL] (split_paragraphs text))].
Proof.
  intros Hne Hfit. rewrite process_text_groups, chunk_groups_from.
  destruct (split_paragraphs text) as [| p ps] eqn:E; [done |].
  rewrite groups_from_fits by (simpl in *; lia). done.
Qed.

End RoundTrip.

Lemma fitting_text_is_one_chunk_witness :
  Terminology.split_paragraphs (lit "ab" ++ [NL; NL] ++ lit "cd ") <> []
  /\ total_len (Terminology.split_paragraphs (lit "ab" ++ [NL; NL] ++ lit "cd "))
     <= Terminology.chunk_size (echo_preprocessor 4)
  /\ Terminology.process_text (echo_preprocessor 4)
       (lit "ab" ++ [NL; NL] ++ lit "cd ") =
     [echo_nlp (lit "ab" ++ [NL; NL] ++ lit "cd")].
Proof.
  assert (H1 : Terminology.split_paragraphs (lit "ab" ++ [NL; NL] ++ lit "cd ") <> [])
    by (vm_compute; discriminate).
  assert (H2 : total_len (Terminology.split_paragraphs (lit "ab" ++ [NL; NL] ++ lit "cd "))
               <= Terminology.chunk_size (echo_preprocessor 4))
    by (vm_compute; discriminate).
  split; [exact H1 |]. split; [exact H2 |].
  exact (fitting_text_is_one_chunk (echo_preprocessor 4) _ H1 H2).
Defined.

(** ** The analysis entry point and the word cloud dialogue *)

Section Analyze.

Import Terminology.

Variable lower : str -> str.

(** X20. A file that is missing is not an error for [analyze]: it prints the
    message of [load_text] between its progress lines and returns four
    distributions without entries, as it does, without the message, for a
    file of whitespace only.  On each of these distributions [get_stats]
    raises [ValueError]. *)
Theorem analyze_missing_file (fs : filesystem) (self : TextAnalyzer)
    (missing blank content : str) :
  fs missing = None -> fs blank = Some content ->
  Forall (fun c => isspace c = true) content ->
  analyze lower fs self missing =
    ([Print (lit "Loading and preprocessing text...");
      Print (lit "Error: The file " ++ missing ++ lit " was not found.");
      Print (lit "Analyzing word frequencies...");
      Print (lit "Analyzing noun phrases...")],
     (FrequencyDist_init [], FrequencyDist_init [], FrequencyDist_init [],
      FrequencyDist_init []))
  /\ analyze lower fs self blank =
       ([Print (lit "Loading and preprocessing text...");
         Print (lit "Analyzing word frequencies...");
         Print (lit "Analyzing noun phrases...")],
        (FrequencyDist_init [], FrequencyDist_init [], FrequencyDist_init [],
         FrequencyDist_init []))
  /\ get_stats (FrequencyDist_init []) = Raises ValueError.
Proof.
  intros Hmissing Hblank Hspace. split_and!; [| | done].
  - unfold analyze, load_text. rewrite Hmissing.
    unfold process_text. by rewrite (split_paragraphs_all_space []).
  - unfold analyze, load_text. rewrite Hblank.
    unfold process_text. by rewrite (split_paragraphs_all_space content).
Qed.

Variable int : str -> option Z.

Lemma lookup_options (i : nat) :
  (i < 7)%nat -> is_Some (colormap_options WordCloudGenerator_init !! i).
Proof. intros H. apply lookup_lt_is_Some. simpl. lia. Qed.

(** X21. [interactive_wordcloud] always ends with a call of [create_wordcloud]
    whose colormap is one of the seven options and whose background is
    white or black.  An answer that [int] reads as a number from 1 to 7
    selects that option; one from -6 to 0 is not rejected but selects
    from the end of the list (0 selects the last option); any other
    answer selects viridis. *)
Theorem interactive_wordcloud_choices (freq_dist : FrequencyDist)
    (pos_name answer1 answer2 answer3 : str) :
  let options := colormap_options WordCloudGenerator_init in
  let call := (interactive_wordcloud lower int WordCloudGenerator_init freq_dist
                 pos_name answer1 answer2 answer3).2 in
  call_colormap call ∈ options
  /\ match int answer1 with
     | Some i =>
         if decide (1 <= i <= 7)
         then options !! Z.to_nat (i - 1) = Some (call_colormap call)
         else if decide (-6 <= i <= 0)
         then options !! Z.to_nat (i + 6) = Some (call_colormap call)
         else call_colormap call = lit "viridis"
     | None => call_colormap call = lit "viridis"
     end
  /\ call_background_color call ∈ [lit "white"; lit "black"]
  /\ call_max_words call = default 100 (int answer2)
  /\ call_freq_dist call = freq_dist.
Proof.
  intros options call.
  assert (Hcolor :
    call_colormap call =
      match int answer1 with
      | Some i => default (lit "viridis") (py_index options (i - 1))
      | None => lit "viridis"
      end).
  { unfold call, interactive_wordcloud. fold options.
    destruct (int answer1) as [i |]; [| by destruct (int answer2)].
    destruct (py_index options (i - 1)); by destruct (int answer2). }
  assert (Hviridis : lit "viridis" ∈ options) by apply list_elem_of_here.
  split_and!.
  - rewrite Hcolor. destruct (int answer1) as [i |]; [| done].
    unfold py_index.
    destruct (0 <=? i - 1); [| destruct (0 <=? len options + (i - 1))];
      try done;
      (destruct (options !! _) as [cmap |] eqn:E; [| done]);
      by apply list_elem_of_lookup_2 in E.
  - rewrite Hcolor. destruct (int answer1) as [i |]; [| done].
    unfold py_index. change (len options) with 7.
    repeat case_decide.
    + rewrite (proj2 (Z.leb_le 0 (i - 1))) by lia.
      destruct (lookup_options (Z.to_nat (i - 1))) as [cmap E]; [lia |].
      fold options in E. by rewrite E.
    + rewrite (proj2 (Z.leb_gt 0 (i - 1))) by lia.
      rewrite (proj2 (Z.leb_le 0 (7 + (i - 1)))) by lia.
      replace (7 + (i - 1)) with (i + 6) by lia.
      destruct (lookup_options (Z.to_nat (i + 6))) as [cmap E]; [lia |].
      fold options in E. by rewrite E.
    + destruct (Z.leb_spec 0 (i - 1)).
      * rewrite lookup_ge_None_2; [done |]. simpl. lia.
      * rewrite (proj2 (Z.leb_gt 0 (7 + (i - 1)))) by lia. done.
  - unfold call, interactive_wordcloud.
    destruct (int answer1) as [i |];
      [destruct (py_index _ _) |]; destruct (int answer2); cbn [snd call_background_color];
      unfold str_in; case_bool_decide; (done || apply list_elem_of_here).
  - unfold call, interactive_wordcloud.
    destruct (int answer1) as [i |];
      [destruct (py_index _ _) |]; by destruct (int answer2).
  - unfold call, interactive_wordcloud.
    destruct (int answer1) as [i |];
      [destruct (py_index _ _) |]; by destruct (int answer2).
Qed.

End Analyze.

Lemma analyze_missing_file_witness :
  (fun path : str => if decide (path = lit "blank.txt") then Some (lit "  ") else None)
    (lit "none.txt") = None
  /\ (fun path : str => if decide (path = lit "blank.txt") then Some (lit "  ") else None)
       (lit "blank.txt") = Some (lit "  ")
  /\ Forall (fun c => isspace c = true) (lit "  ")
  /\ (Terminology.analyze lower_latin1
        (fun path => if decide (path = lit "blank.txt") then Some (lit "  ") else None)
        (Terminology.TextAnalyzer_init echo_nlp [] 100) (lit "none.txt")).2 =
     (Terminology.FrequencyDist_init [], Terminology.FrequencyDist_init [],
      Terminology.FrequencyDist_init [], Terminology.FrequencyDist_init []).
Proof.
  assert (H1 : (fun path : str =>
                  if decide (path = lit "blank.txt") then Some (lit "  ") else None)
                 (lit "none.txt") = None) by (by vm_compute).
  assert (H2 : (fun path : str =>
                  if decide (path = lit "blank.txt") then Some (lit "  ") else None)
                 (lit "blank.txt") = Some (lit "  ")) by (by vm_compute).
  assert (H3 : Forall (fun c => isspace c = true) (lit "  "))
    by (repeat constructor).
  split; [exact H1 |]. split; [exact H2 |]. split; [exact H3 |].
  destruct (analyze_missing_file lower_latin1 _
              (Terminology.TextAnalyzer_init echo_nlp [] 100)
              (lit "none.txt") (lit "blank.txt") (lit "  ") H1 H2 H3) as [E _].
  by rewrite E.
Defined.
